(** * PDF to audiobook converter: text cleaning, chunking and the
      conversion pipeline of [app.py]

    The development embeds the pure text functions of [app.py]
    ([clean_text], [split_text]) and the control flow of the pipeline
    functions ([extract_text_from_pdf], [convert_text_to_speech],
    [convert_pdf_to_speech], [main_cli]) and states the properties of the
    specification over them. *)

From Stdlib Require Import ZArith NArith List Bool Lia ZifyBool ZifyN.
From Stdlib Require Import String Ascii QArith.
From stdpp Require Import base option list strings pretty gmap.
Import ListNotations.

Local Open Scope Z_scope.

(** ** Python strings

    A Python [str] is a sequence of Unicode code points; [len], slicing
    and [rfind] count code points.  A code point is an [N]. *)

Abbreviation char := N.
Abbreviation str := (list N).

(** ASCII literals of the source, as code points. *)
Definition str_of (s : string) : str :=
  map (fun a => N.of_nat (nat_of_ascii a)) (list_ascii_of_string s).

Definition len (s : str) : Z := Z.of_nat (length s).

(** [str.isspace] on one code point, which is also the class [\s] of a
    [str] pattern: TAB..CR, FS..US, SPACE, NEL, NBSP, U+1680,
    U+2000..U+200A, U+2028, U+2029, U+202F, U+205F, U+3000. *)
Definition is_space (c : char) : bool :=
  (((9 <=? c) && (c <=? 13)) || ((28 <=? c) && (c <=? 32))
   || (c =? 133) || (c =? 160) || (c =? 5760)
   || ((8192 <=? c) && (c <=? 8202))
   || (c =? 8232) || (c =? 8233) || (c =? 8239) || (c =? 8287)
   || (c =? 12288))%N.

(** The range [\x20-\x7E]. *)
Definition is_printable (c : char) : bool := ((32 <=? c) && (c <=? 126))%N.

(** The classes [\d] and [\w].  [clean_text] consults them only after its
    second pass, on text made of [\x20-\x7E] alone, where Python's Unicode
    tables coincide with the ASCII ones given here. *)
Definition is_digit (c : char) : bool := ((48 <=? c) && (c <=? 57))%N.

Definition is_word (c : char) : bool :=
  (is_digit c || ((65 <=? c) && (c <=? 90)) || ((97 <=? c) && (c <=? 122))
   || (c =? 95))%N.

(** [str.lstrip()], [str.rstrip()] and [str.strip()] without argument. *)
Fixpoint lstrip (s : str) : str :=
  match s with
  | c :: s' => if is_space c then lstrip s' else s
  | [] => []
  end.

Definition rstrip (s : str) : str := rev (lstrip (rev s)).

Definition strip (s : str) : str := rstrip (lstrip s).

(** ** [re.sub] with a literal replacement

    A pattern is given by its matcher: from the character before the
    current position (none at the start of the string) and the text from
    the current position on, the length of the match that starts here, if
    there is one.  [re.sub] scans from the left; where the pattern matches
    it emits the replacement and resumes after the match, elsewhere it
    copies one character.  [skip] counts the characters of the current
    match still to pass over. *)

Definition matcher : Type := option char -> str -> option nat.

Fixpoint re_sub_go (m : matcher) (repl : str) (skip : nat)
    (prev : option char) (s : str) : str :=
  match s with
  | [] => []
  | c :: s' =>
      match skip with
      | S k => re_sub_go m repl k (Some c) s'
      | O =>
          match m prev s with
          | Some (S n) => repl ++ re_sub_go m repl n (Some c) s'
          | Some O => repl ++ c :: re_sub_go m repl O (Some c) s'
          | None => c :: re_sub_go m repl O (Some c) s'
          end
      end
  end.

Definition re_sub (m : matcher) (repl : str) (s : str) : str :=
  re_sub_go m repl O None s.

(** Length of the longest prefix whose characters are all in a class:
    what a greedy [c*] consumes. *)
Fixpoint span (p : char -> bool) (s : str) : nat :=
  match s with
  | c :: s' => if p c then S (span p s') else O
  | [] => O
  end.

(** [\s+] *)
Definition m_spaces : matcher := fun _ s =>
  match span is_space s with
  | O => None
  | n => Some n
  end.

(** [[^\x20-\x7E]] *)
Definition m_nonprintable : matcher := fun _ s =>
  match s with
  | c :: _ => if is_printable c then None else Some 1%nat
  | [] => None
  end.

(** [\s*-\s*].  The hyphen is not in [\s], so giving back characters of
    the first greedy [\s*] never helps: the pattern matches here exactly
    when a hyphen follows the whole run of white space. *)
Definition m_hyphen : matcher := fun _ s =>
  let n := span is_space s in
  match drop n s with
  | c :: r => if (c =? 45)%N then Some (n + 1 + span is_space r)%nat else None
  | [] => None
  end.

(** [\b]: the characters on the two sides differ in being word
    characters; outside the string counts as not a word character. *)
Definition is_word_at (c : option char) : bool :=
  match c with
  | Some c => is_word c
  | None => false
  end.

Definition word_boundary (before after : option char) : bool :=
  xorb (is_word_at before) (is_word_at after).

(** The rest of [\d+\b] once the digit [last] is consumed: greedy, and on
    failure the last digit taken is given back and [\b] tried there. *)
Fixpoint digits_then_boundary (last : char) (s : str) : option nat :=
  match s with
  | c :: s' =>
      if is_digit c then
        match digits_then_boundary c s' with
        | Some n => Some (S n)
        | None => if word_boundary (Some last) (Some c) then Some O else None
        end
      else if word_boundary (Some last) (Some c) then Some O else None
  | [] => if word_boundary (Some last) None then Some O else None
  end.

Fixpoint strip_prefix (p s : str) : option str :=
  match p, s with
  | [], _ => Some s
  | a :: p', c :: s' => if (a =? c)%N then strip_prefix p' s' else None
  | _ :: _, [] => None
  end.

(** [\bPage \d+\b] *)
Definition m_page : matcher := fun prev s =>
  if word_boundary prev (head s) then
    match strip_prefix (str_of "Page ") s with
    | Some (d :: r) =>
        if is_digit d then
          match digits_then_boundary d r with
          | Some n => Some (6 + n)%nat
          | None => None
          end
        else None
    | _ => None
    end
  else None.

(** [[“”]] and [[‘’]] *)
Definition m_double_quote : matcher := fun _ s =>
  match s with
  | c :: _ => if ((c =? 8220) || (c =? 8221))%N then Some 1%nat else None
  | [] => None
  end.

Definition m_single_quote : matcher := fun _ s =>
  match s with
  | c :: _ => if ((c =? 8216) || (c =? 8217))%N then Some 1%nat else None
  | [] => None
  end.

(** ** [clean_text]

    The passes of the source in its order.  On a [str] none of the calls
    raises, so the [except] branch is not reachable and the function is
    total. *)

Definition pass_spaces (text : str) : str := re_sub m_spaces (str_of " ") text.
Definition pass_nonprintable (text : str) : str :=
  re_sub m_nonprintable (str_of " ") text.
Definition pass_hyphen (text : str) : str := re_sub m_hyphen (str_of "-") text.
Definition pass_page (text : str) : str := re_sub m_page [] text.
Definition pass_double_quote (text : str) : str :=
  re_sub m_double_quote [34%N] text.
Definition pass_single_quote (text : str) : str :=
  re_sub m_single_quote (str_of "'") text.

Definition clean_text (text : str) : str :=
  let text := pass_spaces text in
  let text := pass_nonprintable text in
  let text := pass_hyphen text in
  let text := pass_page text in
  let text := pass_double_quote text in
  let text := pass_single_quote text in
  strip text.

(** ** [split_text]

    Indices are Python integers.  A slice bound or a bound of [rfind] is
    first brought into [0..len]: a negative one counts from the end. *)

Definition clamp_index (n i : Z) : Z :=
  if i <? 0 then Z.max 0 (i + n) else Z.min i n.

(** [s[:k]] and [s[k:]] *)
Definition slice_to (s : str) (k : Z) : str :=
  take (Z.to_nat (clamp_index (len s) k)) s.

Definition slice_from (s : str) (k : Z) : str :=
  drop (Z.to_nat (clamp_index (len s) k)) s.

(** [s.rfind(c, start, stop)] for a one-character [c]: the highest index
    in the clamped range that holds [c], or [-1].  [i] is the index of the
    head of [s], [found] the highest hit so far. *)
Fixpoint rfind_go (c : char) (s : str) (i lo hi found : Z) : Z :=
  match s with
  | [] => found
  | x :: s' =>
      rfind_go c s' (i + 1) lo hi
        (if (lo <=? i) && (i <? hi) && (x =? c)%N then i else found)
  end.

Definition rfind (s : str) (c : char) (start stop : Z) : Z :=
  rfind_go c s 0 (clamp_index (len s) start) (clamp_index (len s) stop) (-1).

(** The boundary characters in the order of the source:
    [. ! ? ; \n] and the full-width [。 ！ ？ ；]. *)
Definition boundaries : list char :=
  [46; 33; 63; 59; 10; 12290; 65281; 65311; 65307]%N.

(** The [for boundary in ...] loop, started from [split_index = max_chars]:
    the first boundary whose right-most index is positive decides. *)
Fixpoint find_split (bs : list char) (text : str) (max_chars : Z) : Z :=
  match bs with
  | [] => max_chars
  | boundary :: bs' =>
      let index := rfind text boundary 0 max_chars in
      if 0 <? index then index + 1 else find_split bs' text max_chars
  end.

Definition split_index (text : str) (max_chars : Z) : Z :=
  find_split boundaries text max_chars.

(** The [while text:] loop with the list [chunks] it appends to.  The loop
    of the source need not end; [fuel] bounds the number of iterations and
    [None] is returned when it is used up. *)
Fixpoint split_loop (fuel : nat) (text : str) (max_chars : Z)
    (chunks : list str) : option (list str) :=
  match fuel with
  | O => None
  | S fuel' =>
      match text with
      | [] => Some chunks
      | _ :: _ =>
          if len text <=? max_chars then Some (chunks ++ [text])
          else
            let k := split_index text max_chars in
            split_loop fuel' (strip (slice_from text k)) max_chars
              (chunks ++ [slice_to text k])
      end
  end.

(** [split_text]: every iteration that does not stop replaces [text] by a
    trimmed suffix of it, so when the loop ends at all it ends within
    [length text + 1] iterations ([split_loop_fuel_enough] below); [None]
    stands for a loop that never ends. *)
Definition split_text (text : str) (max_chars : Z) : option (list str) :=
  split_loop (S (length text)) text max_chars [].

Definition default_max_chars : Z := 1000.

(** ** The world of the pipeline

    What the pipeline reads and writes: files, directories, the error log
    and standard output.  The libraries it calls (PyPDF2, gTTS, pydub,
    tkinter) are not part of the program; their answers are fields of
    [env]. *)

(** Decoded audio: pydub's [AudioSegment], by its frame rate and its raw
    samples. *)
Record audio : Type := Audio { frame_rate : Z; raw_data : list Z }.

(** A page of a PDF: [page.extract_text()] returns a string or raises. *)
Inductive page : Type :=
  | PageText (text : str)
  | PageError (why : string).

Inductive file : Type :=
  | Pdf (pages : list page)        (* a file PdfReader can read *)
  | Mp3 (a : audio)                (* a file ffmpeg can decode *)
  | Other (size : nat).            (* any other content of that size *)

(** [os.path.getsize]: a readable PDF or MP3 is not empty. *)
Definition file_size (f : file) : nat :=
  match f with
  | Pdf pages => S (length pages)
  | Mp3 a => S (length (raw_data a))
  | Other size => size
  end.

Record world : Type := World {
  files : gmap string file;
  dirs : gset string;
  stdout : list string;            (* lines printed *)
  logfile : list string;           (* pdf_to_audiobook.log, level ERROR *)
  tmp_counter : nat                (* temporary files created so far *)
}.

Record env : Type := Env {
  FFMPEG_AVAILABLE : bool;
  display_available : bool;        (* whether tk.Toplevel() succeeds *)
  gtts_init : str -> string -> bool;
                                   (* whether gTTS(text, lang) accepts its
                                      arguments *)
  tts_save : str -> string -> option file;
                                   (* tts.save: the file written, none
                                      when the request raises *)
  writable : string -> bool;       (* whether export can write the path *)
  can_makedirs : string -> bool;
  ratecv : list Z -> Z -> Z -> option (list Z);
                                   (* resampling of raw samples from one
                                      frame rate to another, none when it
                                      raises *)
  abspath : string -> string
}.

(** Python exceptions: all those met here derive from [Exception];
    [msg] is [str(e)].  What a library raises is a [LibraryError]; the
    texts given to those below are indicative. *)
Inductive exn : Type :=
  | RuntimeError (msg : string)
  | FileNotFoundError (msg : string)
  | IndexError (msg : string)
  | LibraryError (msg : string).

Definition exn_str (e : exn) : string :=
  match e with
  | RuntimeError msg | FileNotFoundError msg | IndexError msg
  | LibraryError msg => msg
  end.

(** How a call ends: it returns, it raises, or it never ends. *)
Inductive result (A : Type) : Type :=
  | Ok (a : A)
  | Raise (e : exn)
  | Diverge.
Arguments Ok {A} a.
Arguments Raise {A} e.
Arguments Diverge {A}.

(** Computations on the world that return or raise. *)
Definition M (A : Type) : Type := world -> result A * world.

Definition ret {A} (a : A) : M A := fun w => (Ok a, w).
Definition raise {A} (e : exn) : M A := fun w => (Raise e, w).
Definition bind {A B} (c : M A) (k : A -> M B) : M B := fun w =>
  match c w with
  | (Ok a, w') => k a w'
  | (Raise e, w') => (Raise e, w')
  | (Diverge, w') => (Diverge, w')
  end.
(** [try: c except Exception as e: h e] *)
Definition try_except {A} (c : M A) (h : exn -> M A) : M A := fun w =>
  match c w with
  | (Ok a, w') => (Ok a, w')
  | (Raise e, w') => h e w'
  | (Diverge, w') => (Diverge, w')
  end.
(** [try: c finally: f], for an [f] that does not raise. *)
Definition try_finally {A} (c : M A) (f : world -> world) : M A := fun w =>
  match c w with
  | (Diverge, w') => (Diverge, w')
  | (r, w') => (r, f w')
  end.
Definition modify (f : world -> world) : M unit := fun w => (Ok tt, f w).
Definition gets {A} (f : world -> A) : M A := fun w => (Ok (f w), w).

Notation "x <- c ;; k" := (bind c (fun x => k))
  (at level 100, c at next level, right associativity).
Notation "c ;;; k" := (bind c (fun _ => k))
  (at level 100, right associativity).

Local Open Scope string_scope.
Local Open Scope list_scope.

Definition set_files (f : gmap string file -> gmap string file) (w : world)
    : world :=
  World (f (files w)) (dirs w) (stdout w) (logfile w) (tmp_counter w).

(** [print] *)
Definition print (line : string) : M unit := modify (fun w =>
  World (files w) (dirs w) (stdout w ++ [line]) (logfile w) (tmp_counter w)).

(** [logging.error] *)
Definition logging_error (msg : string) : M unit := modify (fun w =>
  World (files w) (dirs w) (stdout w) (logfile w ++ [msg]) (tmp_counter w)).

(** [os.path.exists] *)
Definition path_exists (path : string) (w : world) : bool :=
  bool_decide (is_Some (files w !! path)) || bool_decide (path ∈ dirs w).

(** [os.path.getsize] of an existing file *)
Definition getsize (path : string) (w : world) : nat :=
  match files w !! path with
  | Some f => file_size f
  | None => O
  end.

(** ** [extract_text_from_pdf] *)

Fixpoint extract_pages (pages : list page) (text : str) : result str :=
  match pages with
  | [] => Ok text
  | PageText page_text :: pages' =>
      match page_text with
      | [] => extract_pages pages' text
      | _ :: _ => extract_pages pages' (text ++ page_text ++ [10%N])
      end
  | PageError why :: _ => Raise (LibraryError why)
  end.

Definition read_pdf (pdf_path : string) : M str := fun w =>
  match files w !! pdf_path with
  | Some (Pdf pages) => (extract_pages pages [], w)
  | Some _ => (Raise (LibraryError "invalid pdf header"), w)
  | None =>
      (Raise (FileNotFoundError ("No such file or directory: " +:+ pdf_path)),
       w)
  end.

Definition extract_text_from_pdf (pdf_path : string) : M str :=
  try_except (read_pdf pdf_path) (fun e =>
    let error_msg := "PDF extraction failed: " +:+ exn_str e in
    logging_error error_msg ;;;
    raise (RuntimeError error_msg)).

(** ** [convert_text_to_speech] *)

(** [tempfile.NamedTemporaryFile(delete=False, suffix=".mp3")]: a new
    empty file under a name not used before. *)
Definition tmp_name (n : nat) : string := "/tmp/tmp" +:+ pretty n +:+ ".mp3".

Definition named_temporary_file : M string := fun w =>
  let name := tmp_name (tmp_counter w) in
  (Ok name,
   World (<[name := Other 0]> (files w)) (dirs w) (stdout w) (logfile w)
     (S (tmp_counter w))).

(** [AudioSegment.from_mp3] *)
Definition from_mp3 (path : string) : M audio := fun w =>
  match files w !! path with
  | Some (Mp3 a) => (Ok a, w)
  | _ => (Raise (LibraryError ("Decoding failed: " +:+ path)), w)
  end.

(** [segment.export(path, format="mp3")] *)
Definition export (E : env) (a : audio) (path : string) : M unit := fun w =>
  if writable E path then (Ok tt, set_files <[path := Mp3 a]> w)
  else (Raise (LibraryError ("Permission denied: " +:+ path)), w).

(** The [finally] clause: [os.remove] on each temporary file that
    exists. *)
Definition remove_temp_files (temp_files : list string) (w : world) : world :=
  set_files (fun fs => foldl (fun fs temp_file => delete temp_file fs) fs
                         temp_files) w.

(** [a + b] on segments: the samples of [b] after those of [a], under the
    parameters of [a]. *)
Definition audio_add (a b : audio) : audio :=
  Audio (frame_rate a) (raw_data a ++ raw_data b).

(** The [for i, chunk in enumerate(chunks)] loop; the lists
    [audio_segments] and [temp_files] it appends to are threaded, and on
    an exception [temp_files] as it stands is handed to the [finally]. *)
Fixpoint synthesize_chunks (E : env) (language : string) (chunks : list str)
    (audio_segments : list audio) (temp_files : list string)
    : world -> result (list audio) * list string * world :=
  fun w =>
  match chunks with
  | [] => (Ok audio_segments, temp_files, w)
  | chunk :: chunks' =>
      if negb (gtts_init E chunk language) then
        (Raise (LibraryError "gTTS rejected its arguments"), temp_files, w)
      else
      match named_temporary_file w with
      | (Ok temp_file_path, w1) =>
          match tts_save E chunk language with
          | None =>
              (Raise (LibraryError "gTTS request failed"), temp_files, w1)
          | Some f =>
              let w2 := set_files <[temp_file_path := f]> w1 in
              let temp_files := temp_files ++ [temp_file_path] in
              if negb (path_exists temp_file_path w2)
                 || (getsize temp_file_path w2 =? 0)%nat
              then
                (Raise (RuntimeError ("Failed to create temporary audio file: "
                                      +:+ temp_file_path)), temp_files, w2)
              else
                match from_mp3 temp_file_path w2 with
                | (Ok segment, w3) =>
                    synthesize_chunks E language chunks'
                      (audio_segments ++ [segment]) temp_files w3
                | (Raise e, w3) => (Raise e, temp_files, w3)
                | (Diverge, w3) => (Diverge, temp_files, w3)
                end
          end
      | (Raise e, w1) => (Raise e, temp_files, w1)
      | (Diverge, w1) => (Diverge, temp_files, w1)
      end
  end.

(** [audio_segments[0]] and the [+=] loop over [audio_segments[1:]] *)
Definition combine_segments (audio_segments : list audio) : result audio :=
  match audio_segments with
  | [] => Raise (IndexError "list index out of range")
  | first :: others => Ok (foldl audio_add first others)
  end.

(** The inner [try] of the source, after the progress window is up. *)
Definition synthesize_and_export (E : env) (chunks : list str)
    (output_file language : string) : M bool := fun w =>
  match synthesize_chunks E language chunks [] [] w with
  | (r, temp_files, w1) =>
      try_finally
        (try_except
           (audio_segments <- (fun w => (r, w)) ;;
            combined_audio <- (fun w => (combine_segments audio_segments, w)) ;;
            export E combined_audio output_file ;;;
            exists_ <- gets (path_exists output_file) ;;
            size <- gets (getsize output_file) ;;
            if negb exists_ || (size =? 0)%nat
            then raise (RuntimeError ("Failed to create output file: "
                                      +:+ output_file))
            else ret true)
           (fun e =>
              logging_error ("Text-to-speech conversion failed: " +:+ exn_str e)
              ;;; raise e))
        (remove_temp_files temp_files) w1
  end.

Definition convert_text_to_speech (E : env) (text : str)
    (output_file language : string) : M bool :=
  try_except
    (if negb (FFMPEG_AVAILABLE E) then
       raise (RuntimeError
         "ffmpeg is required but not found. Please install ffmpeg and add it to PATH.")
     else
       match split_text text default_max_chars with
       | None => fun w => (Diverge, w)
       | Some chunks =>
           if negb (display_available E) then
             raise (LibraryError "no display name and no $DISPLAY environment variable")
           else synthesize_and_export E chunks output_file language
       end)
    (fun e =>
       let error_msg := "Text-to-speech conversion failed: " +:+ exn_str e in
       logging_error error_msg ;;;
       raise (RuntimeError error_msg)).

(** ** [convert_pdf_to_speech] *)

Definition convert_pdf_to_speech (E : env) (pdf_path output_file
    language : string) : M (bool * string) :=
  try_except
    (exists_ <- gets (path_exists pdf_path) ;;
     if negb exists_ then
       raise (FileNotFoundError ("PDF file not found: " +:+ pdf_path))
     else
       raw_text <- extract_text_from_pdf pdf_path ;;
       match raw_text with
       | [] =>
           ret (false,
                "No text extracted from PDF. The file may be scanned or image-based.")
       | _ :: _ =>
           let cleaned_text := clean_text raw_text in
           convert_text_to_speech E cleaned_text output_file language ;;;
           ret (true, "Conversion successful!")
       end)
    (fun e =>
       let error_msg := "PDF to speech conversion failed: " +:+ exn_str e in
       logging_error error_msg ;;;
       ret (false, error_msg)).

(** ** [main_cli] *)

(** The namespace [parser.parse_args()] returns. *)
Record args : Type := Args {
  pdf_file : string;
  output_file : string;
  lang : string;
  speed : Q
}.

(** The command line: the two positional arguments and the values given
    to [-l] and [-s], if given; the value of [-s] is taken after
    [type=float] has converted it (a rational here: rounding of the
    product with the frame rate is not modelled). *)
Record command_line : Type := CommandLine {
  cl_pdf_file : string;
  cl_output_file : string;
  cl_lang : option string;
  cl_speed : option Q
}.

(** The four [add_argument] calls: defaults ["en"] and [1.0]; no
    [choices] and no other check on a value. *)
Definition parse_args (c : command_line) : args :=
  Args (cl_pdf_file c) (cl_output_file c)
    (default "en" (cl_lang c)) (default 1%Q (cl_speed c)).

(** [os.path.dirname] (POSIX): up to the last slash, without trailing
    slashes unless only slashes are left. *)
Definition is_slash (a : ascii) : bool := Ascii.eqb a "/"%char.

Fixpoint drop_while {A} (p : A -> bool) (l : list A) : list A :=
  match l with
  | x :: l' => if p x then drop_while p l' else l
  | [] => []
  end.

Definition dirname (path : string) : string :=
  let head := rev (drop_while (fun a => negb (is_slash a))
                     (rev (list_ascii_of_string path))) in
  if forallb is_slash head then string_of_list_ascii head
  else string_of_list_ascii (rev (drop_while is_slash (rev head))).

(** [os.makedirs] *)
Definition makedirs (E : env) (path : string) : M unit := fun w =>
  if can_makedirs E path then
    (Ok tt, World (files w) (dirs w ∪ {[path]}) (stdout w) (logfile w)
              (tmp_counter w))
  else (Raise (LibraryError ("Permission denied: " +:+ path)), w).

(** [int(x)] on a rational: towards zero. *)
Definition int_of_Q (q : Q) : Z := Z.quot (Qnum q) (Zpos (Qden q)).

(** [audio._spawn(audio.raw_data, overrides={'frame_rate': r})] *)
Definition spawn_with_frame_rate (a : audio) (r : Z) : audio :=
  Audio r (raw_data a).

(** [audio.set_frame_rate(r)] *)
Definition set_frame_rate (E : env) (a : audio) (r : Z) : M audio :=
  if (r =? frame_rate a)%Z then ret a
  else match ratecv E (raw_data a) (frame_rate a) r with
       | Some data => ret (Audio r data)
       | None => raise (LibraryError "ratecv failed")
       end.

Definition adjust_speed (E : env) (a : args) : M unit :=
  try_except
    (print "Adjusting playback speed..." ;;;
     audio <- from_mp3 (output_file a) ;;
     let new_sample_rate :=
       int_of_Q (inject_Z (frame_rate audio) * speed a) in
     let adjusted_audio := spawn_with_frame_rate audio new_sample_rate in
     adjusted_audio <- set_frame_rate E adjusted_audio (frame_rate audio) ;;
     export E adjusted_audio (output_file a))
    (fun e => print ("Warning: Speed adjustment failed: " +:+ exn_str e)).

Definition main_cli (E : env) (c : command_line) : M unit :=
  (if negb (FFMPEG_AVAILABLE E)
   then print "Warning: ffmpeg not found - audio processing may not work"
   else ret tt) ;;;
  let a := parse_args c in
  exists_ <- gets (path_exists (pdf_file a)) ;;
  if negb exists_ then
    print ("Error: PDF file not found at " +:+ pdf_file a)
  else
    let output_dir := dirname (output_file a) in
    dir_exists <- gets (path_exists output_dir) ;;
    made <- (if negb (String.eqb output_dir "") && negb dir_exists then
               try_except (makedirs E output_dir ;;; ret true)
                 (fun e =>
                    print ("Error: Failed to create output directory: "
                           +:+ exn_str e) ;;; ret false)
             else ret true) ;;
    if negb made then ret tt
    else
      print "Extracting text from PDF..." ;;;
      outcome <-
        convert_pdf_to_speech E (pdf_file a) (output_file a) (lang a) ;;
      let '(success, message) := outcome in
      if success then
        (if negb (Qeq_bool (speed a) 1) then adjust_speed E a else ret tt) ;;;
        print ("Success: " +:+ message) ;;;
        print ("Audiobook saved to: " +:+ abspath E (output_file a))
      else print ("Error: " +:+ message).

(** ** Concrete inputs *)

(** The cleaner example of the specification:
    [Hello\n\nPage 3   World’s  “Best”]. *)
Definition example_raw : str :=
  str_of "Hello" ++ [10; 10]%N ++ str_of "Page 3   World" ++ [8217%N]
  ++ str_of "s  " ++ [8220%N] ++ str_of "Best" ++ [8221%N].

(** The output the specification gives for it: [Hello World's "Best"]. *)
Definition example_expected : str :=
  str_of "Hello World's " ++ [34%N] ++ str_of "Best" ++ [34%N].

(** ** Vocabulary of the properties *)

Local Open Scope Z_scope.

Definition printable (c : char) : Prop := (32 <= c <= 126)%N.

Definition blank (s : str) : Prop := Forall (fun c => is_space c = true) s.

(** [text[i] == c] *)
Definition occurs_at (text : str) (c : char) (i : Z) : Prop :=
  0 <= i /\ text !! Z.to_nat i = Some c.

(** [i] is the right-most index of [c] within the first [max_chars]
    characters of [text]. *)
Definition rightmost_within (text : str) (c : char) (max_chars i : Z) : Prop :=
  occurs_at text c i /\ i < max_chars
  /\ forall j, i < j < max_chars -> ~ occurs_at text c j.

(** [c] does not occur at a position [> 0] within the first [max_chars]
    characters. *)
Definition no_positive_occurrence (text : str) (c : char) (max_chars : Z)
    : Prop :=
  forall j, 0 < j < max_chars -> ~ occurs_at text c j.

(** The split point in the words of the specification: the first boundary
    in the priority order that occurs at a position [> 0] within the first
    [max_chars] characters decides, and the split is just after its
    right-most occurrence; when there is none the split is at
    [max_chars]. *)
Definition split_point (bs : list char) (text : str) (max_chars k : Z)
    : Prop :=
  (exists earlier b later i,
      bs = earlier ++ b :: later
      /\ Forall (fun b' => no_positive_occurrence text b' max_chars) earlier
      /\ rightmost_within text b max_chars i /\ 0 < i /\ k = i + 1)
  \/ (Forall (fun b => no_positive_occurrence text b max_chars) bs
      /\ k = max_chars).

(** The text is put together again from the chunks by placing before each
    chunk the white space that was trimmed in front of it. *)
Definition undo_trim (gaps chunks : list str) : str :=
  concat (zip_with app gaps chunks).

(** The loop in the words of the specification: as [split_loop], but the
    remainder is trimmed on the left only. *)
Fixpoint spec_split_loop (fuel : nat) (text : str) (max_chars : Z)
    (chunks : list str) : option (list str) :=
  match fuel with
  | O => None
  | S fuel' =>
      match text with
      | [] => Some chunks
      | _ :: _ =>
          if len text <=? max_chars then Some (chunks ++ [text])
          else
            let k := split_index text max_chars in
            spec_split_loop fuel' (lstrip (slice_from text k)) max_chars
              (chunks ++ [slice_to text k])
      end
  end.

Definition spec_split_text (text : str) (max_chars : Z)
    : option (list str) :=
  spec_split_loop (S (length text)) text max_chars [].

(** No two neighbours in [s] are related by [r]. *)
Fixpoint no_adjacent (r : char -> char -> bool) (s : str) : bool :=
  match s with
  | a :: s' =>
      match s' with
      | b :: _ => negb (r a b) && no_adjacent r s'
      | [] => true
      end
  | [] => true
  end.

Definition is_hyphen (c : char) : bool := (c =? 45)%N.

(** No two white-space characters in a row. *)
Definition single_spaced (s : str) : bool :=
  no_adjacent (fun a b => is_space a && is_space b) s.

(** No white space next to a hyphen, on either side. *)
Definition hyphen_tight (s : str) : bool :=
  no_adjacent (fun a b => (is_space a && is_hyphen b)
                          || (is_hyphen a && is_space b)) s.

(** The pattern matches at no position of [s]; [prev] is the character
    before [s]. *)
Fixpoint matches_nowhere (m : matcher) (prev : option char) (s : str) : bool :=
  match s with
  | [] => true
  | c :: s' =>
      match m prev s with
      | Some _ => false
      | None => matches_nowhere m (Some c) s'
      end
  end.

(** No [Page <digits>] token between word boundaries. *)
Definition page_free (s : str) : bool := matches_nowhere m_page None s.

(** A pattern whose matches are not empty, lie inside the text and are at
    least as long as the replacement: [re.sub] cannot lengthen the text. *)
Definition consuming (m : matcher) (repl : str) : Prop :=
  forall prev s n,
    m prev s = Some n -> (1 <= n <= length s)%nat /\ (length repl <= n)%nat.

(** A sample environment: every library call succeeds; the speech of a
    chunk is 24 kHz audio with one sample per character, and resampling
    keeps the proportional number of samples. *)
Definition sample_env : env :=
  Env true true (fun _ _ => true)
    (fun chunk _ => Some (Mp3 (Audio 24000 (map Z.of_N chunk))))
    (fun _ => true) (fun _ => true)
    (fun data r_in r_out =>
       if (r_in <=? 0)%Z then None
       else Some (take (Z.to_nat (Z.of_nat (length data) * r_out / r_in))
                    data))
    (fun path => path).

(** A sample world: one PDF with text, one without. *)
Definition sample_world : world :=
  World {[ "in.pdf" := Pdf [PageText (str_of "Hello world. Bye"); PageText []];
           "scan.pdf" := Pdf [PageText []; PageText []] ]} ∅ [] [] 0.

(** ** Further vocabulary *)

(** The boundaries that can occur in a text made of [\x20-\x7E]:
    [. ! ? ;]. *)
Definition ascii_boundaries : list char := [46; 33; 63; 59]%N.

(** The world after [logging.error(msg)] and after [print(line)]. *)
Definition logged (msg : string) (w : world) : world :=
  World (files w) (dirs w) (stdout w) (logfile w ++ [msg]) (tmp_counter w).

Definition printed (line : string) (w : world) : world :=
  World (files w) (dirs w) (stdout w ++ [line]) (logfile w) (tmp_counter w).

(** What the loop of [extract_text_from_pdf] adds for one page. *)
Definition page_line (page_text : str) : str :=
  match page_text with
  | [] => []
  | _ :: _ => page_text ++ [10%N]
  end.

(** The names of the [n] temporary files created from counter [from]
    on. *)
Definition tmp_names (from n : nat) : list string :=
  map tmp_name (seq from n).

(** gTTS accepts the chunk and saves a file that decodes to [a]. *)
Definition speech_ok (E : env) (language : string) (chunk : str)
    (a : audio) : Prop :=
  gtts_init E chunk language = true
  /\ tts_save E chunk language = Some (Mp3 a).

(** The files after the segments were saved under successive temporary
    names from counter [from] on. *)
Fixpoint insert_segments (from : nat) (segments : list audio)
    (fs : gmap string file) : gmap string file :=
  match segments with
  | [] => fs
  | a :: segments' =>
      insert_segments (S from) segments' (<[tmp_name from := Mp3 a]> fs)
  end.


(** ** [setup_ffmpeg]

    What the function asks of the host: [shutil.which],
    [platform.system()], [os.environ.get], [os.getcwd()] and
    [os.path.join]; [os.path.exists] is asked of the world.  The function
    returns whether ffmpeg was found and sets [AudioSegment.converter],
    which is threaded here. *)

Record host : Type := Host {
  which : string -> option string;
  system : string;
  environ : string -> option string;
  getcwd : string;
  path_join : list string -> string
}.

Definition common_paths (H : host) : list string :=
  if String.eqb (system H) "Windows" then
    [ path_join H [default "C:\Program Files" (environ H "PROGRAMFILES");
                   "ffmpeg"; "bin"; "ffmpeg.exe"];
      path_join H [default "C:\Program Files (x86)"
                     (environ H "PROGRAMFILES(X86)");
                   "ffmpeg"; "bin"; "ffmpeg.exe"];
      path_join H [default "C:" (environ H "SYSTEMDRIVE");
                   "ffmpeg"; "bin"; "ffmpeg.exe"];
      path_join H [getcwd H; "ffmpeg.exe"] ]
  else
    [ "/usr/bin/ffmpeg"; "/usr/local/bin/ffmpeg"; "/opt/bin/ffmpeg";
      path_join H [getcwd H; "ffmpeg"] ].

(** The [for path in common_paths] loop. *)
Fixpoint search_paths (paths : list string) (w : world) (converter : string)
    : bool * string :=
  match paths with
  | [] => (false, converter)
  | path :: paths' =>
      if path_exists path w then (true, path)
      else search_paths paths' w converter
  end.

Definition setup_ffmpeg (H : host) (w : world) (converter : string)
    : bool * string :=
  match which H "ffmpeg" with
  | Some _ => (true, converter)
  | None => search_paths (common_paths H) w converter
  end.

(** ** The handlers of the window: [browse_pdf] and [generate_speech]

    What a handler shows and starts, in order: message boxes and the
    opening of the output file by the system. *)

Inductive gui_event : Type :=
  | ShowWarning (title message : string)
  | ShowError (title message : string)
  | ShowInfo (title message : string)
  | OpenFile (path : string).

(** The variables and the text widget of the window. *)
Record gui_state : Type := Gui {
  text_input : str;                (* content of the text widget *)
  pdf_path_var : string;
  lang_var : string;
  speed_var : Q;
  play_var : bool
}.

(** [text_input.get("1.0", tk.END)]: the content and the newline a Tk
    text widget ends with. *)
Definition text_input_get (g : gui_state) : str := text_input g ++ [10%N].

(** [browse_pdf], for the path the file dialog returned (empty when the
    dialog was cancelled). *)
Definition browse_pdf (file_path : string) (g : gui_state)
    : M (list gui_event * gui_state) :=
  if String.eqb file_path "" then ret ([], g)
  else
    try_except
      (exists_ <- gets (path_exists file_path) ;;
       if negb exists_ then
         ret ([ShowError "Error" ("File not found: " +:+ file_path)], g)
       else
         raw_text <- extract_text_from_pdf file_path ;;
         match raw_text with
         | [] =>
             ret ([ShowWarning "Warning"
                     "No text extracted from PDF. The file may be scanned."],
                  g)
         | _ :: _ =>
             let cleaned_text := clean_text raw_text in
             ret ([], Gui cleaned_text file_path (lang_var g) (speed_var g)
                        (play_var g))
         end)
      (fun e =>
         ret ([ShowError "Error" ("Failed to load PDF: " +:+ exn_str e)], g)).





(** * Properties *)

(** ** The embedding on small inputs *)

Example clean_text_hyphen :
  clean_text (str_of "  well -  known   words ") = str_of "well-known words".
Proof. vm_compute. reflexivity. Qed.

Example clean_text_page_token :
  clean_text (str_of "see Page 12, not Page 12a nor aPage 3")
  = str_of "see , not Page 12a nor aPage 3".
Proof. vm_compute. reflexivity. Qed.

Example clean_text_unicode_space :
  clean_text ([160; 8195]%N ++ str_of "a" ++ [12288; 233]%N ++ str_of "b")
  = str_of "a  b".
Proof. vm_compute. reflexivity. Qed.

Example split_text_boundary :
  split_text (str_of "One. Two! Three? and a long tail") 6
  = Some [str_of "One."; str_of "Two!"; str_of "Three?"; str_of "and a ";
          str_of "long t"; str_of "ail"].
Proof. vm_compute. reflexivity. Qed.

Example split_text_priority :
  split_text (str_of "a;b.c;d") 6 = Some [str_of "a;b."; str_of "c;d"].
Proof. vm_compute. reflexivity. Qed.

Example split_text_boundary_at_zero :
  split_text (str_of ".abcdef") 3
  = Some [str_of ".ab"; str_of "cde"; str_of "f"].
Proof. vm_compute. reflexivity. Qed.

Example split_text_empty : split_text [] default_max_chars = Some [].
Proof. reflexivity. Qed.

Example extract_pages_example :
  extract_pages [PageText (str_of "A"); PageText (str_of "B"); PageText []] []
  = Ok (str_of "A" ++ [10%N] ++ str_of "B" ++ [10%N]).
Proof. reflexivity. Qed.

Example dirname_examples :
  (dirname "out/book/a.mp3", dirname "a.mp3", dirname "/a.mp3")
  = ("out/book", "", "/")%string.
Proof. reflexivity. Qed.

(** ** Generic facts on [re_sub] *)

Section ReSub.
Variables (m : matcher) (repl : str).

Lemma re_sub_go_Forall (P : char -> Prop) :
  Forall P repl ->
  forall s skip prev, Forall P s -> Forall P (re_sub_go m repl skip prev s).
Proof.
  intros Hrepl s. induction s as [|c s IH]; intros skip prev Hs; simpl.
  - constructor.
  - inversion Hs as [|? ? Hc Hs']; subst.
    destruct skip as [|k]; [|now apply IH].
    destruct (m prev (c :: s)) as [[|n]|].
    + apply Forall_app; split; [assumption|]. constructor; auto.
    + apply Forall_app; split; auto.
    + constructor; auto.
Qed.

Lemma re_sub_Forall (P : char -> Prop) (s : str) :
  Forall P repl -> Forall P s -> Forall P (re_sub m repl s).
Proof. intros; now apply re_sub_go_Forall. Qed.

End ReSub.

(** ** The cleaner *)

Lemma is_printable_spec (c : char) : is_printable c = true <-> printable c.
Proof. unfold is_printable, printable. lia. Qed.

Lemma pass_nonprintable_go_printable (s : str) (prev : option char) :
  Forall printable (re_sub_go m_nonprintable (str_of " ") O prev s).
Proof.
  change (str_of " ") with [32%N].
  revert prev. induction s as [|c s IH]; intros prev; simpl; [constructor|].
  destruct (is_printable c) eqn:Hc.
  - constructor; [now apply is_printable_spec | apply IH].
  - constructor; [unfold printable; lia | apply IH].
Qed.

Lemma lstrip_Forall (P : char -> Prop) (s : str) :
  Forall P s -> Forall P (lstrip s).
Proof.
  induction 1 as [|c s Hc Hs IH]; simpl; [constructor|].
  destruct (is_space c); [exact IH | now constructor].
Qed.

Lemma strip_Forall (P : char -> Prop) (s : str) :
  Forall P s -> Forall P (strip s).
Proof.
  intros H. unfold strip, rstrip.
  apply Forall_rev, lstrip_Forall, Forall_rev, lstrip_Forall, H.
Qed.

(** A pass that matches single characters of a class none of which
    occurs leaves the text as it is. *)
Lemma quote_pass_id (m : matcher) (repl : str) (P : char -> Prop) :
  (forall prev c t, P c -> m prev (c :: t) = None) ->
  forall s prev, Forall P s -> re_sub_go m repl O prev s = s.
Proof.
  intros Hm s. induction s as [|c s IH]; intros prev Hs; simpl; [reflexivity|].
  inversion Hs; subst. rewrite Hm by assumption. f_equal. now apply IH.
Qed.

Lemma before_quotes_printable (x : str) :
  Forall printable
    (pass_page (pass_hyphen (pass_nonprintable (pass_spaces x)))).
Proof.
  apply re_sub_Forall; [constructor|].
  apply re_sub_Forall;
    [change (str_of "-") with [45%N]; repeat constructor; unfold printable; lia|].
  apply pass_nonprintable_go_printable.
Qed.

Lemma quote_passes_id (t : str) :
  Forall printable t -> pass_single_quote (pass_double_quote t) = t.
Proof.
  intros Ht.
  assert (Hd : pass_double_quote t = t).
  { apply (quote_pass_id _ _ printable); [|exact Ht].
    intros prev c r Hc. unfold m_double_quote, printable in *.
    destruct (c =? 8220)%N eqn:E1; [apply N.eqb_eq in E1; lia|].
    destruct (c =? 8221)%N eqn:E2; [apply N.eqb_eq in E2; lia|]. reflexivity. }
  rewrite Hd. apply (quote_pass_id _ _ printable); [|exact Ht].
  intros prev c r Hc. unfold m_single_quote, printable in *.
  destruct (c =? 8216)%N eqn:E1; [apply N.eqb_eq in E1; lia|].
  destruct (c =? 8217)%N eqn:E2; [apply N.eqb_eq in E2; lia|]. reflexivity.
Qed.

(** The cleaner on the example of the specification: the curly quotes
    were replaced by spaces in the second pass, before the quote passes
    could see them. *)
Lemma clean_text_example_value :
  clean_text example_raw = str_of "Hello  World s  Best".
Proof. vm_compute. reflexivity. Qed.

(** C2 (amended).  On [Hello\n\nPage 3   World’s  “Best”] the newlines and
    the runs of spaces are collapsed and [Page 3] is removed, so that the
    two spaces that stood around it both remain: the result is
    [Hello  World], then [s ] and [Best], with at most one character in
    the place of each of the three curly quotes.  What stands in those
    three places is left open. *)
Theorem clean_text_example :
  exists q1 q2 q3 : str,
    clean_text example_raw
    = str_of "Hello  World" ++ q1 ++ str_of "s " ++ q2 ++ str_of "Best" ++ q3
    /\ (length q1 <= 1)%nat /\ (length q2 <= 1)%nat /\ (length q3 <= 1)%nat.
Proof.
  exists [32%N], [32%N], []. split; [vm_compute; reflexivity|].
  simpl. lia.
Qed.

(** C2 as stated fails: the result is not [Hello World's "Best"]. *)
Lemma clean_text_example_counterexample :
  clean_text example_raw <> example_expected.
Proof. vm_compute. discriminate. Qed.

(** C10.  Every character of an output of the cleaner is in
    [0x20..0x7E]; the text that reaches the two quote passes is already in
    that range, so it holds no curly quote and the quote passes return it
    unchanged. *)
Theorem clean_text_printable_ascii (x : str) :
  Forall (fun c => (32 <= c <= 126)%N) (clean_text x)
  /\ (let t := pass_page (pass_hyphen (pass_nonprintable (pass_spaces x))) in
      Forall (fun c => (32 <= c <= 126)%N) t
      /\ Forall (fun c => ~ In c [8220; 8221; 8216; 8217]%N) t
      /\ pass_single_quote (pass_double_quote t) = t).
Proof.
  pose proof (before_quotes_printable x) as Ht.
  split; [|split; [exact Ht | split]].
  - unfold clean_text. rewrite quote_passes_id by exact Ht.
    now apply strip_Forall.
  - eapply Forall_impl; [exact Ht|]. unfold printable. simpl. intros c Hc.
    intros [H|[H|[H|[H|[]]]]]; subst; lia.
  - now apply quote_passes_id.
Qed.

(** ** White space and trimming *)

Lemma lstrip_decompose (s : str) :
  exists lead, s = lead ++ lstrip s /\ blank lead.
Proof.
  induction s as [|c s (lead & Hs & Hl)]; simpl.
  - exists []. split; [reflexivity | constructor].
  - destruct (is_space c) eqn:Hc.
    + exists (c :: lead). split; [simpl; congruence | now constructor].
    + exists []. split; [reflexivity | constructor].
Qed.

Lemma lstrip_length (s : str) : (length (lstrip s) <= length s)%nat.
Proof.
  destruct (lstrip_decompose s) as (lead & Hs & _).
  rewrite Hs at 2. rewrite length_app. lia.
Qed.

Lemma lstrip_blank (s : str) : blank s -> lstrip s = [].
Proof.
  induction 1 as [|c s Hc _ IH]; simpl; [reflexivity|]. now rewrite Hc.
Qed.

Lemma rstrip_decompose (s : str) :
  exists trail, s = rstrip s ++ trail /\ blank trail.
Proof.
  destruct (lstrip_decompose (rev s)) as (lead & Hs & Hl).
  exists (rev lead). split; [|now apply Forall_rev].
  unfold rstrip. rewrite <- rev_app_distr, <- Hs. now rewrite rev_involutive.
Qed.

Lemma rstrip_length (s : str) : (length (rstrip s) <= length s)%nat.
Proof.
  unfold rstrip. rewrite length_rev.
  etransitivity; [apply lstrip_length|]. now rewrite length_rev.
Qed.

Lemma rstrip_snoc (s : str) (c : char) :
  rstrip (s ++ [c]) = if is_space c then rstrip s else s ++ [c].
Proof.
  unfold rstrip. rewrite rev_app_distr. simpl.
  destruct (is_space c); [reflexivity|].
  simpl. now rewrite rev_involutive.
Qed.

(** A text has no trailing white space when [rstrip] leaves it as it is:
    it is empty or its last character is not white space. *)
Lemma rstrip_fixed_iff (s : str) :
  rstrip s = s <->
  s = [] \/ exists s' c, s = s' ++ [c] /\ is_space c = false.
Proof.
  destruct s as [|c0 s0] using rev_ind; [split; [now left | reflexivity]|].
  clear IHs0. rewrite rstrip_snoc. split.
  - destruct (is_space c0) eqn:Hc; [|right; eauto].
    intros H. pose proof (rstrip_length s0) as Hl.
    apply (f_equal (@length _)) in H. rewrite length_app in H.
    simpl in H. lia.
  - intros [H|(s' & c & H & Hc)].
    + now destruct s0.
    + apply app_inj_tail in H as [-> ->]. now rewrite Hc.
Qed.

Lemma rstrip_fixed_suffix (a b : str) :
  rstrip (a ++ b) = a ++ b -> rstrip b = b.
Proof.
  rewrite !rstrip_fixed_iff. intros [H|(s' & c & H & Hc)].
  - apply app_eq_nil in H as [_ ->]. now left.
  - destruct b as [|c0 b0] using rev_ind; [now left|]. right.
    rewrite app_assoc in H. apply app_inj_tail in H as [_ ->]. eauto.
Qed.

Lemma lstrip_idemp (s : str) : lstrip (lstrip s) = lstrip s.
Proof.
  induction s as [|c s IH]; simpl; [reflexivity|].
  destruct (is_space c) eqn:Hc; [exact IH|]. simpl. now rewrite Hc.
Qed.

Lemma rstrip_idemp (s : str) : rstrip (rstrip s) = rstrip s.
Proof. unfold rstrip. now rewrite rev_involutive, lstrip_idemp. Qed.

Lemma rstrip_blank (s : str) : blank s -> rstrip s = [].
Proof.
  intros H. unfold rstrip. rewrite lstrip_blank; [reflexivity|].
  now apply Forall_rev.
Qed.

Lemma strip_length (s : str) : (length (strip s) <= length s)%nat.
Proof.
  unfold strip. etransitivity; [apply rstrip_length | apply lstrip_length].
Qed.

(** What [strip] removes: a blank prefix and a blank suffix; nothing at
    the end of a text that has no trailing white space. *)
Lemma strip_decompose (s : str) :
  exists lead trail,
    s = lead ++ strip s ++ trail /\ blank lead /\ blank trail
    /\ (rstrip s = s -> trail = []).
Proof.
  destruct (lstrip_decompose s) as (lead & Hs & Hl).
  destruct (rstrip_decompose (lstrip s)) as (trail & Ht & Hb).
  exists lead, trail. unfold strip. repeat split; try assumption.
  - now rewrite <- Ht.
  - intros H. rewrite Hs in H. apply rstrip_fixed_suffix in H.
    rewrite H in Ht. rewrite <- (app_nil_r (lstrip s)) in Ht at 1.
    now apply app_inv_head in Ht.
Qed.

Lemma strip_fixed_rstrip (s : str) : rstrip (strip s) = strip s.
Proof. unfold strip. apply rstrip_idemp. Qed.

Lemma strip_same_length (s : str) : length (strip s) = length s -> strip s = s.
Proof.
  destruct (strip_decompose s) as (lead & trail & Hs & _).
  intros H. rewrite Hs in H at 2. rewrite !length_app in H.
  destruct lead; [|simpl in H; lia]. destruct trail; [|simpl in H; lia].
  simpl in Hs. now rewrite app_nil_r in Hs.
Qed.

(** ** [rfind] and the split point *)

Lemma rfind_go_spec (c : char) (s : str) :
  forall i lo hi found,
    let r := rfind_go c s i lo hi found in
    (r = found
     /\ forall n, lo <= i + Z.of_nat n < hi -> s !! n <> Some c)
    \/ (exists n, r = i + Z.of_nat n /\ s !! n = Some c /\ lo <= r < hi
        /\ forall n', (n < n')%nat -> i + Z.of_nat n' < hi ->
                      s !! n' <> Some c).
Proof.
  induction s as [|x s IH]; intros i lo hi found; simpl.
  - left. split; [reflexivity|]. intros n _. now rewrite lookup_nil.
  - set (found' := if (lo <=? i) && (i <? hi) && (x =? c)%N then i else found).
    destruct (IH (i + 1) lo hi found') as [[Hr Hno]|(n & Hr & Hn & Hb & Hno)].
    + subst found'.
      destruct ((lo <=? i) && (i <? hi) && (x =? c)%N) eqn:Hcond.
      * right. exists O. rewrite Hr.
        assert ((x =? c)%N = true) as Hx by (destruct (x =? c)%N; lia).
        apply N.eqb_eq in Hx. subst x.
        split; [lia|]. split; [reflexivity|]. split; [lia|].
        intros [|n'] Hlt Hhi; [lia|]. simpl. apply Hno. lia.
      * left. split; [exact Hr|]. intros [|n] Hn; simpl.
        -- intros [= ->]. rewrite N.eqb_refl in Hcond. lia.
        -- apply Hno. lia.
    + right. exists (S n). split; [lia|]. split; [exact Hn|].
      split; [exact Hb|]. intros [|n'] Hlt Hhi; [lia|]. simpl.
      apply Hno; lia.
Qed.

Lemma clamp_index_nonneg (n i : Z) :
  0 <= n -> 0 <= i -> clamp_index n i = Z.min i n.
Proof. intros Hn Hi. unfold clamp_index. destruct (Z.ltb_spec i 0); lia. Qed.

Lemma len_nonneg (s : str) : 0 <= len s.
Proof. unfold len. lia. Qed.

(** [text.rfind(c, 0, max_chars)] is [-1] when [c] does not occur within
    the first [max_chars] characters, else its right-most index there. *)
Lemma rfind_spec (text : str) (c : char) (max_chars : Z) :
  0 <= max_chars ->
  let r := rfind text c 0 max_chars in
  (r = -1 /\ forall j, j < max_chars -> ~ occurs_at text c j)
  \/ (rightmost_within text c max_chars r /\ r < len text).
Proof.
  intros Hmax r. subst r. unfold rfind.
  pose proof (len_nonneg text) as Hlen.
  rewrite !clamp_index_nonneg by lia. rewrite Z.min_l by lia.
  destruct (rfind_go_spec c text 0 0 (Z.min max_chars (len text)) (-1))
    as [[Hr Hno]|(n & Hr & Hn & Hb & Hno)].
  - left. split; [exact Hr|]. intros j Hj [Hj0 Hocc].
    apply (Hno (Z.to_nat j)); [|exact Hocc].
    apply lookup_lt_Some in Hocc. unfold len. lia.
  - right. rewrite Hr. simpl. pose proof (lookup_lt_Some _ _ _ Hn) as Hlt.
    split; [|unfold len; lia]. split; [|split].
    + split; [lia|]. now replace (Z.to_nat (0 + Z.of_nat n)) with n by lia.
    + lia.
    + intros j Hj [Hj0 Hocc]. apply (Hno (Z.to_nat j)); [lia| |exact Hocc].
      apply lookup_lt_Some in Hocc. unfold len. lia.
Qed.

Lemma find_split_spec (bs : list char) (text : str) (max_chars : Z) :
  0 <= max_chars ->
  split_point bs text max_chars (find_split bs text max_chars)
  /\ (find_split bs text max_chars = max_chars
      \/ 2 <= find_split bs text max_chars <= Z.min max_chars (len text)).
Proof.
  intros Hmax. induction bs as [|b bs [IH IHb]]; simpl.
  - split; [right; split; [constructor | reflexivity] | now left].
  - destruct (rfind_spec text b max_chars Hmax) as [[Hr Hno]|[Hr Hlt]].
    + rewrite Hr. simpl. split; [|exact IHb].
      destruct IH as [(earlier & b' & later & i & -> & He & Hi)|[Hall Hk]].
      * left. exists (b :: earlier), b', later, i. split; [reflexivity|].
        split; [|exact Hi]. constructor; [|exact He].
        intros j Hj. apply Hno. lia.
      * right. split; [|exact Hk]. constructor; [|exact Hall].
        intros j Hj. apply Hno. lia.
    + destruct (Z.ltb_spec 0 (rfind text b 0 max_chars)) as [Hpos|Hle].
      * split.
        -- left. exists [], b, bs, (rfind text b 0 max_chars).
           split; [reflexivity|]. split; [constructor|].
           split; [exact Hr | split; [exact Hpos | reflexivity]].
        -- right. destruct Hr as (_ & Hr & _). lia.
      * split; [|exact IHb].
        assert (Hnone : no_positive_occurrence text b max_chars).
        { intros j Hj. destruct Hr as (_ & _ & Hr). apply Hr. lia. }
        destruct IH as [(earlier & b' & later & i & -> & He & Hi)|[Hall Hk]].
        -- left. exists (b :: earlier), b', later, i. split; [reflexivity|].
           split; [|exact Hi]. now constructor.
        -- right. split; [|exact Hk]. now constructor.
Qed.

(** ** The loop of [split_text] *)

Lemma split_loop_step (fuel : nat) (text : str) (max_chars : Z)
    (chunks : list str) :
  max_chars < len text -> text <> [] ->
  split_loop (S fuel) text max_chars chunks
  = split_loop fuel (strip (slice_from text (split_index text max_chars)))
      max_chars (chunks ++ [slice_to text (split_index text max_chars)]).
Proof.
  intros Hlen Hne. destruct text as [|c t]; [congruence|].
  cbn [split_loop]. destruct (Z.leb_spec (len (c :: t)) max_chars); [lia|].
  reflexivity.
Qed.

Lemma split_loop_stop (fuel : nat) (text : str) (max_chars : Z)
    (chunks : list str) :
  len text <= max_chars -> text <> [] ->
  split_loop (S fuel) text max_chars chunks = Some (chunks ++ [text]).
Proof.
  intros Hlen Hne. destruct text as [|c t]; [congruence|].
  cbn [split_loop]. destruct (Z.leb_spec (len (c :: t)) max_chars); [|lia].
  reflexivity.
Qed.

(** For a text longer than [max_chars >= 1] the split index lies in
    [1..max_chars], so the slices are plain [take] and [drop]. *)
Lemma split_index_range (text : str) (max_chars : Z) :
  0 <= max_chars -> max_chars < len text ->
  let k := split_index text max_chars in
  0 <= k <= max_chars
  /\ (1 <= max_chars -> 1 <= k)
  /\ slice_to text k = take (Z.to_nat k) text
  /\ slice_from text k = drop (Z.to_nat k) text
  /\ len (slice_to text k) = k.
Proof.
  intros Hmax Hlen k. subst k. unfold split_index.
  destruct (find_split_spec boundaries text max_chars Hmax) as [_ Hk].
  set (k := find_split boundaries text max_chars) in *.
  assert (0 <= k <= max_chars) as Hr by lia.
  unfold slice_to, slice_from.
  rewrite clamp_index_nonneg by (unfold len; lia).
  rewrite Z.min_l by lia.
  repeat split; try lia.
  unfold len in *. rewrite length_take. lia.
Qed.

(** One run of the loop for [max_chars >= 1], with what it leaves out:
    [gaps] are the blank runs trimmed in front of the chunks and [trail]
    the blank run trimmed at the end. *)
Lemma split_loop_run (max_chars : Z) :
  1 <= max_chars ->
  forall fuel text chunks,
    (length text < fuel)%nat ->
    exists cs gaps trail,
      split_loop fuel text max_chars chunks = Some (chunks ++ cs)
      /\ Forall (fun c => c <> [] /\ len c <= max_chars) cs
      /\ (length cs <= length text)%nat
      /\ length gaps = length cs
      /\ Forall blank gaps /\ blank trail /\ hd [] gaps = []
      /\ text = undo_trim gaps cs ++ trail
      /\ (rstrip text = text -> trail = []).
Proof.
  intros Hmax fuel. induction fuel as [|fuel IH]; intros text chunks Hfuel;
    [lia|].
  destruct text as [|c t] eqn:Etext.
  { exists [], [], []. simpl. rewrite app_nil_r.
    repeat split; constructor. }
  rewrite <- Etext in *. assert (text <> []) as Hne by (subst; discriminate).
  clear Etext c t.
  destruct (Z.le_gt_cases (len text) max_chars) as [Hle|Hgt].
  { exists [text], [[]], []. rewrite split_loop_stop by assumption.
    unfold undo_trim. simpl. rewrite !app_nil_r.
    repeat split; try reflexivity; repeat constructor; try assumption.
    destruct text; [congruence | simpl; lia]. }
  rewrite split_loop_step by (assumption || lia).
  destruct (split_index_range text max_chars) as (Hk & Hk1 & Hto & Hfrom & Hl);
    [lia | lia |].
  specialize (Hk1 Hmax).
  set (k := split_index text max_chars) in *.
  rewrite Hto, Hfrom in *.
  set (chunk := take (Z.to_nat k) text) in *.
  set (rest := drop (Z.to_nat k) text) in *.
  assert (text = chunk ++ rest) as Htext by (symmetry; apply take_drop).
  assert (length rest = length text - Z.to_nat k)%nat as Hrest
    by apply length_drop.
  pose proof (strip_length rest) as Hstrip.
  assert (0 < length text)%nat as Hpos by (unfold len in Hgt; lia).
  destruct (IH (strip rest) (chunks ++ [chunk])) as
    (cs & gaps & trail' & Hrun & Hcs & Hn & Hg & Hblank & _ & Hhd & Hjoin & Ht);
    [lia|].
  specialize (Ht (strip_fixed_rstrip rest)). subst trail'.
  rewrite app_nil_r in Hjoin.
  destruct (strip_decompose rest) as (lead & trail & Hdec & Hlead & Htrail & Hfix).
  assert (chunk <> [] /\ len chunk <= max_chars) as Hchunk.
  { split; [|lia]. intros E. rewrite E in Hl. unfold len in Hl. simpl in Hl.
    lia. }
  assert (rstrip text = text -> trail = []) as Hend.
  { intros H. apply Hfix. rewrite Htext in H.
    now apply rstrip_fixed_suffix in H. }
  exists (chunk :: cs).
  destruct gaps as [|g gaps].
  - (* the rest is blank: nothing follows *)
    destruct cs; [|discriminate]. unfold undo_trim in Hjoin. simpl in Hjoin.
    exists [[]], (lead ++ trail). rewrite Hrun, <- app_assoc.
    unfold undo_trim. simpl. rewrite app_nil_r.
    repeat split; try reflexivity; try (repeat constructor; tauto);
      try (simpl; lia).
    + now apply Forall_app.
    + rewrite Htext at 1. f_equal. rewrite Hdec at 1. now rewrite Hjoin.
    + intros H. rewrite (Hend H), app_nil_r.
      assert (rest = lead) as Hrl
        by (rewrite Hdec at 1; rewrite Hjoin, (Hend H); apply app_nil_r).
      rewrite Htext in H. apply rstrip_fixed_suffix in H.
      rewrite Hrl in H. rewrite rstrip_blank in H by assumption.
      now symmetry.
  - destruct cs as [|c1 cs]; [discriminate|]. simpl in Hhd. subst g.
    exists ([] :: lead :: gaps), trail. rewrite Hrun, <- app_assoc.
    unfold undo_trim in *. simpl in *.
    inversion Hblank as [|? ? _ Hblank'].
    inversion Hcs as [|? ? Hc1 Hcs'].
    repeat split; try reflexivity; try assumption; try tauto;
      try (simpl; lia).
    + constructor; assumption.
    + repeat constructor; assumption.
    + rewrite Htext at 1. rewrite Hdec at 1. rewrite Hjoin.
      now rewrite <- !app_assoc.
Qed.

Lemma split_loop_fuel_mono (max_chars : Z) :
  forall fuel text chunks r,
    split_loop fuel text max_chars chunks = Some r ->
    forall fuel', (fuel <= fuel')%nat ->
      split_loop fuel' text max_chars chunks = Some r.
Proof.
  induction fuel as [|fuel IH]; intros text chunks r H fuel' Hle;
    [discriminate|].
  destruct fuel' as [|fuel']; [lia|].
  destruct text as [|c t]; [exact H|].
  cbn [split_loop] in *.
  destruct (len (c :: t) <=? max_chars); [exact H|].
  eapply IH; [exact H | lia].
Qed.

(** An iteration that leaves [text] as it is repeats for ever. *)
Lemma split_loop_stuck (text : str) (max_chars : Z) :
  max_chars < len text -> text <> [] ->
  strip (slice_from text (split_index text max_chars)) = text ->
  forall fuel chunks, split_loop fuel text max_chars chunks = None.
Proof.
  intros Hlen Hne Hsame fuel.
  induction fuel as [|fuel IH]; intros chunks; [reflexivity|].
  rewrite split_loop_step by assumption. rewrite Hsame. apply IH.
Qed.

Lemma slice_from_length (s : str) (k : Z) :
  (length (slice_from s k) <= length s)%nat
  /\ (length (slice_from s k) = length s -> slice_from s k = s).
Proof.
  unfold slice_from. set (n := Z.to_nat _). rewrite length_drop.
  split; [lia|]. intros H. destruct n; [reflexivity|].
  destruct s; [reflexivity | simpl in H; lia].
Qed.

(** The fuel [split_text] gives the loop is enough whenever the loop ends
    at all, for every [max_chars]. *)
Lemma split_loop_fuel_enough (max_chars : Z) :
  forall fuel text chunks r,
    split_loop fuel text max_chars chunks = Some r ->
    split_loop (S (length text)) text max_chars chunks = Some r.
Proof.
  induction fuel as [|fuel IH]; intros text chunks r H; [discriminate|].
  destruct text as [|c t] eqn:Etext; [exact H|].
  rewrite <- Etext in *.
  assert (text <> []) as Hne by (subst; discriminate).
  destruct (Z.le_gt_cases (len text) max_chars) as [Hle|Hgt].
  { rewrite split_loop_stop in * by assumption. exact H. }
  rewrite split_loop_step in * by (assumption || lia).
  pose proof (strip_length (slice_from text (split_index text max_chars))).
  set (text' := strip _) in *.
  destruct (slice_from_length text (split_index text max_chars)) as [Hl Heq].
  destruct (Nat.eq_dec (length text') (length text)) as [Hsame|Hless].
  - exfalso. assert (text' = text) as Hfix.
    { subst text'. rewrite strip_same_length by lia. apply Heq. lia. }
    rewrite Hfix in H.
    rewrite (split_loop_stuck text max_chars) in H;
      [discriminate | lia | assumption | exact Hfix].
  - apply IH in H. eapply split_loop_fuel_mono; [exact H|]. lia.
Qed.

(** The result extends the chunks collected so far, by at least one chunk
    when the text is not empty. *)
Lemma split_loop_extends (max_chars : Z) :
  forall fuel text chunks r,
    split_loop fuel text max_chars chunks = Some r ->
    exists cs, r = chunks ++ cs /\ (text <> [] -> cs <> []).
Proof.
  induction fuel as [|fuel IH]; intros text chunks r H; [discriminate|].
  destruct text as [|c t]; cbn [split_loop] in H.
  - injection H as <-. exists []. now rewrite app_nil_r.
  - destruct (len (c :: t) <=? max_chars).
    + injection H as <-. now exists [c :: t].
    + apply IH in H as (cs & -> & _). rewrite <- app_assoc.
      eexists. split; [reflexivity | discriminate].
Qed.

(** No chunk at all is returned for the empty text only. *)
Lemma split_text_no_chunks (text : str) (max_chars : Z) :
  split_text text max_chars = Some [] <-> text = [].
Proof.
  split; [|now intros ->].
  intros H. apply split_loop_extends in H as (cs & Hcs & Hne).
  destruct text; [reflexivity|]. destruct cs; [|discriminate].
  now exfalso; apply Hne.
Qed.

(** C5.  For [max_chars >= 1] the chunker returns, and every chunk it
    returns has at most [max_chars] characters, a chunk cut at
    [max_chars] for want of a boundary included. *)
Theorem split_text_chunk_bound (text : str) (max_chars : Z) :
  1 <= max_chars ->
  exists chunks,
    split_text text max_chars = Some chunks
    /\ Forall (fun chunk => len chunk <= max_chars) chunks.
Proof.
  intros Hmax.
  destruct (split_loop_run max_chars Hmax (S (length text)) text [])
    as (cs & _ & _ & Hrun & Hcs & _); [lia|].
  exists cs. split; [exact Hrun|].
  eapply Forall_impl; [exact Hcs|]. simpl. tauto.
Qed.

Lemma split_text_chunk_bound_witness :
  exists chunks,
    split_text (str_of "One. Two! Three? and a long tail") 6 = Some chunks
    /\ Forall (fun chunk => len chunk <= 6) chunks.
Proof. apply split_text_chunk_bound. lia. Defined.

(** C4 (amended).  For [max_chars >= 1] the chunker returns, and the text
    is the chunks in order with a blank run put back in front of each
    chunk but the first, followed by one more blank run: the white space
    trimmed at the end of the remainder.  That last run is empty when the
    text has no trailing white space. *)
Theorem split_text_rejoin (text : str) (max_chars : Z) :
  1 <= max_chars ->
  exists chunks gaps trail,
    split_text text max_chars = Some chunks
    /\ length gaps = length chunks /\ hd [] gaps = []
    /\ Forall blank gaps /\ blank trail
    /\ undo_trim gaps chunks ++ trail = text
    /\ (rstrip text = text -> trail = []).
Proof.
  intros Hmax.
  destruct (split_loop_run max_chars Hmax (S (length text)) text [])
    as (cs & gaps & trail & Hrun & _ & _ & Hg & Hb & Ht & Hhd & Hjoin & Hend);
    [lia|].
  exists cs, gaps, trail. repeat split; try assumption. now symmetry.
Qed.

Lemma split_text_rejoin_witness :
  exists chunks gaps trail,
    split_text (str_of "ab. cd   ") 4 = Some chunks
    /\ length gaps = length chunks /\ hd [] gaps = []
    /\ Forall blank gaps /\ blank trail
    /\ undo_trim gaps chunks ++ trail = str_of "ab. cd   "
    /\ (rstrip (str_of "ab. cd   ") = str_of "ab. cd   " -> trail = []).
Proof. apply split_text_rejoin. lia. Defined.

(** C4 as stated fails: ["ab. cd   "] with [max_chars = 4] gives the
    chunks ["ab."] and ["cd"], and whatever is put back in front of the
    chunks, the result ends in [d], not in the three spaces of the
    text. *)
Lemma split_text_rejoin_counterexample :
  split_text (str_of "ab. cd   ") 4 = Some [str_of "ab."; str_of "cd"]
  /\ forall gaps,
       undo_trim gaps [str_of "ab."; str_of "cd"] <> str_of "ab. cd   ".
Proof.
  split; [vm_compute; reflexivity|].
  intros gaps H. apply (f_equal (@rev _)) in H.
  destruct gaps as [|g0 [|g1 gaps]]; unfold undo_trim in H; simpl in H.
  - vm_compute in H. discriminate.
  - rewrite app_nil_r, rev_app_distr in H. vm_compute in H. discriminate.
  - replace (concat (zip_with app gaps [])) with (@nil N) in H
      by (destruct gaps; reflexivity).
    rewrite app_nil_r, !rev_app_distr in H. vm_compute in H. discriminate.
Qed.

(** C9.  For [max_chars >= 1] the loop ends: the chunker returns a finite
    list of non-empty chunks, not more of them than the text has
    characters, and an iteration on a text longer than [max_chars] emits a
    non-empty chunk and goes on with a strictly shorter text.  For
    [max_chars = 0] and a non-empty text without white space at its ends
    the loop never ends, whatever the number of iterations allowed. *)
Theorem split_text_terminates (text : str) (max_chars : Z) :
  (1 <= max_chars ->
   (exists chunks,
       split_text text max_chars = Some chunks
       /\ Forall (fun chunk => chunk <> []) chunks
       /\ (length chunks <= length text)%nat)
   /\ (max_chars < len text ->
       slice_to text (split_index text max_chars) <> []
       /\ (length (strip (slice_from text (split_index text max_chars)))
           < length text)%nat))
  /\ (max_chars = 0 -> text <> [] -> strip text = text ->
      forall fuel chunks, split_loop fuel text max_chars chunks = None).
Proof.
  split.
  - intros Hmax. split.
    + destruct (split_loop_run max_chars Hmax (S (length text)) text [])
        as (cs & _ & _ & Hrun & Hcs & Hn & _); [lia|].
      exists cs. split; [exact Hrun|]. split; [|exact Hn].
      eapply Forall_impl; [exact Hcs|]. simpl. tauto.
    + intros Hlen.
      destruct (split_index_range text max_chars)
        as (Hk & Hk1 & Hto & Hfrom & Hl); [lia | lia |].
      specialize (Hk1 Hmax). split.
      * intros E. rewrite E in Hl. unfold len in Hl. simpl in Hl. lia.
      * pose proof (strip_length
                      (slice_from text (split_index text max_chars))) as Hs.
        rewrite Hfrom in *. rewrite length_drop in Hs.
        unfold len in Hlen. lia.
  - intros -> Hne Hfix. apply split_loop_stuck; [|exact Hne|].
    + destruct text; [congruence | unfold len; simpl; lia].
    + destruct (split_index_range text 0) as (Hk & _ & _ & Hfrom & _);
        [lia | destruct text; [congruence | unfold len; simpl; lia] |].
      rewrite Hfrom. replace (split_index text 0) with 0 by lia.
      exact Hfix.
Qed.

Lemma split_text_terminates_witness :
  (exists chunks,
      split_text (str_of "Wait; what? No.") 5 = Some chunks
      /\ Forall (fun chunk => chunk <> []) chunks
      /\ (length chunks <= length (str_of "Wait; what? No."))%nat)
  /\ slice_to (str_of "Wait; what? No.")
       (split_index (str_of "Wait; what? No.") 5) <> []
  /\ (forall fuel chunks, split_loop fuel (str_of "abc") 0 chunks = None).
Proof.
  split; [|split].
  - apply (split_text_terminates (str_of "Wait; what? No.") 5). lia.
  - apply (split_text_terminates (str_of "Wait; what? No.") 5);
      [lia | vm_compute; reflexivity].
  - apply (split_text_terminates (str_of "abc") 0);
      [reflexivity | discriminate | vm_compute; reflexivity].
Defined.

(** C1 (amended).  On a text longer than [max_chars >= 0] one iteration
    splits at the point the specification describes: the boundaries are
    tried in the order [. ! ? ; \n 。 ！ ？ ；], the first one that occurs at
    a position [> 0] within the first [max_chars] characters decides, the
    chunk ends just after its right-most occurrence there, and without
    such a boundary the chunk is the first [max_chars] characters.  The
    loop goes on with the remainder trimmed of white space at both ends. *)
Theorem split_text_iteration (text : str) (max_chars : Z) :
  0 <= max_chars -> max_chars < len text ->
  exists k,
    split_point boundaries text max_chars k
    /\ 0 <= k <= max_chars
    /\ forall fuel chunks,
         split_loop (S fuel) text max_chars chunks
         = split_loop fuel (strip (drop (Z.to_nat k) text)) max_chars
             (chunks ++ [take (Z.to_nat k) text]).
Proof.
  intros Hmax Hlen. exists (split_index text max_chars).
  destruct (split_index_range text max_chars Hmax Hlen)
    as (Hk & _ & Hto & Hfrom & _).
  split; [apply find_split_spec; exact Hmax|]. split; [exact Hk|].
  intros fuel chunks. rewrite split_loop_step; [now rewrite Hto, Hfrom | lia|].
  destruct text; [unfold len in Hlen; simpl in Hlen; lia | discriminate].
Qed.

Lemma split_text_iteration_witness :
  exists k,
    split_point boundaries (str_of "ab. cd   ") 4 k
    /\ 0 <= k <= 4
    /\ forall fuel chunks,
         split_loop (S fuel) (str_of "ab. cd   ") 4 chunks
         = split_loop fuel (strip (drop (Z.to_nat k) (str_of "ab. cd   "))) 4
             (chunks ++ [take (Z.to_nat k) (str_of "ab. cd   ")]).
Proof.
  apply split_text_iteration; [lia | vm_compute; reflexivity].
Defined.

(** C1 as stated fails: on ["ab. cd   "] with [max_chars = 4] the split is
    after the full stop, the remainder [" cd   "] becomes ["cd"] and the
    chunks are ["ab."] and ["cd"]; trimmed on the left only the remainder
    would be ["cd   "] and a chunk ["cd  "] would follow. *)
Lemma split_text_left_trim_counterexample :
  split_index (str_of "ab. cd   ") 4 = 3
  /\ strip (slice_from (str_of "ab. cd   ") 3) = str_of "cd"
  /\ lstrip (slice_from (str_of "ab. cd   ") 3) = str_of "cd   "
  /\ split_text (str_of "ab. cd   ") 4 = Some [str_of "ab."; str_of "cd"]
  /\ spec_split_text (str_of "ab. cd   ") 4
     = Some [str_of "ab."; str_of "cd  "]
  /\ split_text (str_of "ab. cd   ") 4 <> spec_split_text (str_of "ab. cd   ") 4.
Proof. repeat split; try (vm_compute; reflexivity). vm_compute. discriminate. Qed.

(** ** Fixed points of the cleaner *)

Lemma no_adjacent_tail r (c : char) (s : str) :
  no_adjacent r (c :: s) = true -> no_adjacent r s = true.
Proof. simpl. destruct s; [reflexivity|]. now intros [_ H]%andb_true_iff. Qed.

Lemma printable_space (c : char) :
  printable c -> is_space c = true -> c = 32%N.
Proof. unfold printable, is_space. lia. Qed.

Lemma single_spaced_span (c : char) (s : str) :
  single_spaced (c :: s) = true -> is_space c = true -> span is_space s = O.
Proof.
  unfold single_spaced. simpl. destruct s as [|b s]; [reflexivity|].
  intros [H _]%andb_true_iff Hc. rewrite Hc in H. simpl in *.
  now destruct (is_space b).
Qed.

Lemma pass_spaces_fixed (s : str) :
  Forall printable s -> single_spaced s = true ->
  forall prev, re_sub_go m_spaces (str_of " ") O prev s = s.
Proof.
  change (str_of " ") with [32%N].
  induction s as [|c s IH]; intros Hp Hs prev; [reflexivity|].
  inversion Hp as [|? ? Hc Hp']; subst.
  pose proof (no_adjacent_tail _ _ _ Hs) as Hs'.
  cbn [re_sub_go]. unfold m_spaces. cbn [span].
  destruct (is_space c) eqn:Ec.
  - rewrite (single_spaced_span c s Hs Ec). simpl.
    rewrite (printable_space c Hc Ec). f_equal. now apply IH.
  - f_equal. now apply IH.
Qed.

Lemma m_hyphen_tight (prev : option char) (c : char) (s : str) :
  single_spaced (c :: s) = true -> hyphen_tight (c :: s) = true ->
  m_hyphen prev (c :: s) = if is_hyphen c then Some 1%nat else None.
Proof.
  intros Hs Ht. unfold m_hyphen, is_hyphen. cbn [span].
  destruct (is_space c) eqn:Ec.
  - rewrite (single_spaced_span c s Hs Ec).
    change (drop 1 (c :: s)) with s.
    assert ((c =? 45)%N = false) as -> by (unfold is_space in Ec; lia).
    destruct s as [|b s]; [reflexivity|].
    unfold hyphen_tight in Ht. cbn [no_adjacent] in Ht.
    apply andb_true_iff in Ht as [Ht _]. rewrite Ec in Ht.
    unfold is_hyphen in Ht.
    destruct (b =? 45)%N; [simpl in Ht; discriminate | reflexivity].
  - change (drop 0 (c :: s)) with (c :: s). cbv beta iota.
    destruct (c =? 45)%N eqn:E45; [|reflexivity].
    assert (span is_space s = O) as ->; [|reflexivity].
    destruct s as [|b s]; [reflexivity|].
    unfold hyphen_tight in Ht. cbn [no_adjacent] in Ht.
    apply andb_true_iff in Ht as [Ht _]. unfold is_hyphen in Ht.
    rewrite E45, Ec in Ht. cbn [span].
    destruct (is_space b); [simpl in Ht; discriminate | reflexivity].
Qed.

Lemma pass_hyphen_fixed (s : str) :
  single_spaced s = true -> hyphen_tight s = true ->
  forall prev, re_sub_go m_hyphen (str_of "-") O prev s = s.
Proof.
  change (str_of "-") with [45%N].
  induction s as [|c s IH]; intros Hs Ht prev; [reflexivity|].
  pose proof (no_adjacent_tail _ _ _ Hs) as Hs'.
  pose proof (no_adjacent_tail _ _ _ Ht) as Ht'.
  cbn [re_sub_go]. rewrite (m_hyphen_tight prev c s Hs Ht).
  unfold is_hyphen. destruct (c =? 45)%N eqn:E45.
  - apply N.eqb_eq in E45. subst c. simpl. f_equal. now apply IH.
  - f_equal. now apply IH.
Qed.

Lemma matches_nowhere_fixed (m : matcher) (repl : str) (s : str) :
  forall prev, matches_nowhere m prev s = true ->
               re_sub_go m repl O prev s = s.
Proof.
  induction s as [|c s IH]; intros prev H; [reflexivity|].
  cbn [re_sub_go matches_nowhere] in *.
  destruct (m prev (c :: s)); [discriminate|]. f_equal. now apply IH.
Qed.

Lemma lstrip_fixed_rstrip (t : str) : lstrip t = t -> lstrip (rstrip t) = rstrip t.
Proof.
  intros Ht. destruct (rstrip_decompose t) as (trail & Hdec & Hb).
  destruct (rstrip t) as [|c r] eqn:Er; [reflexivity|].
  rewrite Hdec in Ht. simpl in *.
  destruct (is_space c); [|reflexivity].
  pose proof (lstrip_length (r ++ trail)) as Hl.
  apply (f_equal (@length _)) in Ht. simpl in Ht. lia.
Qed.

Lemma strip_idemp (s : str) : strip (strip s) = strip s.
Proof.
  unfold strip. rewrite lstrip_fixed_rstrip by apply lstrip_idemp.
  apply rstrip_idemp.
Qed.

(** A printable, trimmed text without doubled spaces, without white space
    next to a hyphen and without page token is returned as it is. *)
Lemma clean_text_fixed (y : str) :
  Forall printable y -> strip y = y ->
  single_spaced y = true -> hyphen_tight y = true -> page_free y = true ->
  clean_text y = y.
Proof.
  intros Hp Hstrip Hs Ht Hpage. unfold clean_text.
  assert (pass_spaces y = y) as -> by now apply pass_spaces_fixed.
  assert (pass_nonprintable y = y) as ->.
  { apply (quote_pass_id _ _ printable); [|exact Hp].
    intros prev c t Hc. unfold m_nonprintable.
    now apply is_printable_spec in Hc as ->. }
  assert (pass_hyphen y = y) as -> by now apply pass_hyphen_fixed.
  assert (pass_page y = y) as -> by now apply matches_nowhere_fixed.
  rewrite quote_passes_id by exact Hp. exact Hstrip.
Qed.

Lemma re_sub_go_length (m : matcher) (repl : str) :
  consuming m repl ->
  forall s skip prev,
    (length (re_sub_go m repl skip prev s) + Nat.min skip (length s)
     <= length s)%nat.
Proof.
  intros Hm s. induction s as [|c s IH]; intros skip prev; cbn [re_sub_go].
  - simpl. lia.
  - destruct skip as [|k].
    + destruct (m prev (c :: s)) as [[|n]|] eqn:E.
      * apply Hm in E. lia.
      * apply Hm in E. specialize (IH n (Some c)).
        rewrite length_app. simpl in *. lia.
      * specialize (IH O (Some c)). simpl in *. lia.
    + specialize (IH k (Some c)). simpl in *. lia.
Qed.

Lemma re_sub_length (m : matcher) (repl : str) (s : str) :
  consuming m repl -> (length (re_sub m repl s) <= length s)%nat.
Proof.
  intros Hm. pose proof (re_sub_go_length m repl Hm s O None). unfold re_sub.
  lia.
Qed.

Lemma span_le (p : char -> bool) (s : str) : (span p s <= length s)%nat.
Proof.
  induction s as [|c s IH]; simpl; [lia|]. destruct (p c); simpl; lia.
Qed.

Lemma consuming_spaces : consuming m_spaces (str_of " ").
Proof.
  intros prev s n. unfold m_spaces. pose proof (span_le is_space s).
  destruct (span is_space s) eqn:E; [discriminate|].
  intros [= <-]. simpl. lia.
Qed.

Lemma consuming_single (m : matcher) (q : char) :
  (forall prev s n, m prev s = Some n -> n = 1%nat /\ s <> []) ->
  consuming m [q].
Proof.
  intros H prev s n E. apply H in E as [-> Hs].
  destruct s; [congruence | simpl; lia].
Qed.

Lemma consuming_nonprintable : consuming m_nonprintable (str_of " ").
Proof.
  apply consuming_single. intros prev [|c s] n; simpl; [discriminate|].
  destruct (is_printable c); [discriminate|]. now intros [= <-].
Qed.

Lemma consuming_hyphen : consuming m_hyphen (str_of "-").
Proof.
  intros prev s n. unfold m_hyphen.
  pose proof (length_drop s (span is_space s)) as Hd.
  destruct (drop (span is_space s) s) as [|c r] eqn:E; [discriminate|].
  destruct (c =? 45)%N; [|discriminate]. intros [= <-].
  pose proof (span_le is_space r). simpl in *. lia.
Qed.

Lemma digits_then_boundary_le (s : str) :
  forall last n, digits_then_boundary last s = Some n -> (n <= length s)%nat.
Proof.
  induction s as [|c s IH]; intros last n; simpl.
  - destruct (word_boundary _ _); intros [= <-]; lia.
  - destruct (is_digit c).
    + destruct (digits_then_boundary c s) eqn:E.
      * intros [= <-]. apply IH in E. lia.
      * destruct (word_boundary _ _); intros [= <-]; lia.
    + destruct (word_boundary _ _); intros [= <-]; lia.
Qed.

Lemma strip_prefix_length (p : str) :
  forall s r, strip_prefix p s = Some r -> length s = (length p + length r)%nat.
Proof.
  induction p as [|a p IH]; intros s r; simpl.
  - now intros [= ->].
  - destruct s as [|c s]; [discriminate|].
    destruct (a =? c)%N; [|discriminate]. intros H. apply IH in H.
    simpl. lia.
Qed.

Lemma consuming_page : consuming m_page [].
Proof.
  intros prev s n. unfold m_page.
  destruct (word_boundary _ _); [|discriminate].
  destruct (strip_prefix (str_of "Page ") s) as [[|d r]|] eqn:E;
    try discriminate.
  destruct (is_digit d); [|discriminate].
  destruct (digits_then_boundary d r) eqn:Ed; [|discriminate].
  intros [= <-]. apply strip_prefix_length in E.
  apply digits_then_boundary_le in Ed.
  change (length (str_of "Page ")) with 5%nat in E. simpl in *. lia.
Qed.

Lemma consuming_double_quote : consuming m_double_quote [34%N].
Proof.
  apply consuming_single. intros prev [|c s] n; simpl; [discriminate|].
  destruct (_ || _); [|discriminate]. now intros [= <-].
Qed.

Lemma consuming_single_quote : consuming m_single_quote (str_of "'").
Proof.
  apply consuming_single. intros prev [|c s] n; simpl; [discriminate|].
  destruct (_ || _); [|discriminate]. now intros [= <-].
Qed.

(** Where [\s+] is replaced without loss of length, no two white-space
    characters were neighbours. *)
Lemma pass_spaces_same_length (s : str) :
  forall prev,
    length (re_sub_go m_spaces (str_of " ") O prev s) = length s ->
    single_spaced s = true.
Proof.
  induction s as [|c s IH]; intros prev H; [reflexivity|].
  cbn [re_sub_go] in H. unfold m_spaces at 1 in H. cbn [span] in H.
  unfold single_spaced in *. cbn [no_adjacent].
  destruct (is_space c) eqn:Ec.
  - pose proof (re_sub_go_length _ _ consuming_spaces s
                  (span is_space s) (Some c)) as Hl.
    pose proof (span_le is_space s) as Hle.
    rewrite length_app in H. simpl in H.
    assert (span is_space s = O) as E0 by lia. rewrite E0 in H.
    destruct s as [|b s]; [reflexivity|].
    rewrite (IH (Some c)) by (simpl in *; lia).
    cbn [span] in E0. destruct (is_space b); [discriminate | reflexivity].
  - simpl in H. destruct s as [|b s]; [reflexivity|].
    rewrite (IH (Some c)) by (simpl in *; lia). reflexivity.
Qed.

Lemma m_hyphen_single_spaced (prev : option char) (c : char) (s : str) :
  single_spaced (c :: s) = true ->
  m_hyphen prev (c :: s)
  = if is_space c then
      match s with
      | b :: r => if is_hyphen b then Some (2 + span is_space r)%nat else None
      | [] => None
      end
    else if is_hyphen c then Some (1 + span is_space s)%nat else None.
Proof.
  intros Hs. unfold m_hyphen, is_hyphen.
  change (span is_space (c :: s))
    with (if is_space c then S (span is_space s) else O).
  destruct (is_space c) eqn:Ec.
  - rewrite (single_spaced_span c s Hs Ec). change (drop 1 (c :: s)) with s.
    destruct s as [|b r]; reflexivity.
  - reflexivity.
Qed.

Lemma space_not_hyphen (c : char) : is_space c = true -> is_hyphen c = false.
Proof. unfold is_space, is_hyphen. lia. Qed.

(** Where [\s*-\s*] is replaced without loss of length in a text without
    doubled white space, no hyphen had white space next to it. *)
Lemma pass_hyphen_same_length (s : str) :
  single_spaced s = true ->
  forall prev,
    length (re_sub_go m_hyphen (str_of "-") O prev s) = length s ->
    hyphen_tight s = true.
Proof.
  induction s as [|c s IH]; intros Hs prev H; [reflexivity|].
  pose proof (no_adjacent_tail _ _ _ Hs) as Hs'.
  cbn [re_sub_go] in H.
  destruct (m_hyphen prev (c :: s)) as [[|n]|] eqn:E.
  - apply consuming_hyphen in E. lia.
  - pose proof (re_sub_go_length _ _ consuming_hyphen s n (Some c)) as Hl.
    pose proof (proj1 (consuming_hyphen _ _ _ E)) as Hn.
    rewrite length_app in H. simpl in H, Hn.
    assert (n = O) as -> by lia.
    specialize (IH Hs' (Some c) ltac:(lia)).
    unfold hyphen_tight in *. cbn [no_adjacent].
    destruct s as [|b s]; [reflexivity|]. rewrite IH, andb_true_r.
    (* the match has length one: it is the hyphen alone *)
    rewrite (m_hyphen_single_spaced prev c (b :: s) Hs) in E.
    destruct (is_space c) eqn:Ec.
    + destruct (is_hyphen b); [injection E; lia | discriminate].
    + destruct (is_hyphen c); [|discriminate]. injection E as E.
      cbn [span] in E. destruct (is_space b); [lia | reflexivity].
  - simpl in H. specialize (IH Hs' (Some c) ltac:(lia)).
    unfold hyphen_tight in *. cbn [no_adjacent].
    destruct s as [|b s]; [reflexivity|]. rewrite IH, andb_true_r.
    rewrite (m_hyphen_single_spaced prev c (b :: s) Hs) in E.
    destruct (is_space c) eqn:Ec.
    + rewrite (space_not_hyphen c Ec).
      destruct (is_hyphen b); [discriminate | reflexivity].
    + destruct (is_hyphen c); [discriminate | reflexivity].
Qed.

(** Where matches are deleted without loss of length, there were none. *)
Lemma delete_same_length (m : matcher) (s : str) :
  consuming m [] ->
  forall prev,
    length (re_sub_go m [] O prev s) = length s ->
    matches_nowhere m prev s = true.
Proof.
  intros Hm. induction s as [|c s IH]; intros prev H; [reflexivity|].
  cbn [re_sub_go matches_nowhere] in *.
  destruct (m prev (c :: s)) as [[|n]|] eqn:E.
  - apply Hm in E. lia.
  - pose proof (re_sub_go_length _ _ Hm s n (Some c)) as Hl.
    simpl in H. lia.
  - apply IH. simpl in H. lia.
Qed.

Lemma clean_text_printable (x : str) : Forall printable (clean_text x).
Proof.
  unfold clean_text. rewrite quote_passes_id by apply before_quotes_printable.
  apply strip_Forall, before_quotes_printable.
Qed.

Lemma clean_text_fixed_conditions (y : str) :
  Forall printable y -> clean_text y = y ->
  single_spaced y = true /\ hyphen_tight y = true /\ page_free y = true.
Proof.
  intros Hp H. unfold clean_text in H.
  apply (f_equal (@length _)) in H.
  pose proof (strip_length
    (pass_single_quote (pass_double_quote (pass_page (pass_hyphen
       (pass_nonprintable (pass_spaces y))))))) as L7.
  pose proof (re_sub_length _ _
    (pass_double_quote (pass_page (pass_hyphen
       (pass_nonprintable (pass_spaces y))))) consuming_single_quote) as L6.
  pose proof (re_sub_length _ _
    (pass_page (pass_hyphen (pass_nonprintable (pass_spaces y))))
    consuming_double_quote) as L5.
  pose proof (re_sub_length _ _
    (pass_hyphen (pass_nonprintable (pass_spaces y))) consuming_page) as L4.
  pose proof (re_sub_length _ _ (pass_nonprintable (pass_spaces y))
    consuming_hyphen) as L3.
  pose proof (re_sub_length _ _ (pass_spaces y) consuming_nonprintable) as L2.
  pose proof (re_sub_length _ _ y consuming_spaces) as L1.
  change (re_sub m_single_quote (str_of "'")) with pass_single_quote in L6.
  change (re_sub m_double_quote [34%N]) with pass_double_quote in L5.
  change (re_sub m_page []) with pass_page in L4.
  change (re_sub m_hyphen (str_of "-")) with pass_hyphen in L3.
  change (re_sub m_nonprintable (str_of " ")) with pass_nonprintable in L2.
  change (re_sub m_spaces (str_of " ")) with pass_spaces in L1.
  assert (single_spaced y = true) as Hs
    by (apply (pass_spaces_same_length y None);
        change (re_sub_go m_spaces (str_of " ") O None y) with (pass_spaces y);
        lia).
  assert (pass_spaces y = y) as E1 by now apply pass_spaces_fixed.
  rewrite E1 in *.
  assert (pass_nonprintable y = y) as E2.
  { apply (quote_pass_id _ _ printable); [|exact Hp].
    intros prev c t Hc. unfold m_nonprintable.
    now apply is_printable_spec in Hc as ->. }
  rewrite E2 in *.
  assert (hyphen_tight y = true) as Ht.
  { apply (pass_hyphen_same_length y Hs None).
    change (re_sub_go m_hyphen (str_of "-") O None y) with (pass_hyphen y).
    lia. }
  assert (pass_hyphen y = y) as E3 by now apply pass_hyphen_fixed.
  rewrite E3 in *.
  repeat split; try assumption.
  apply delete_same_length; [exact consuming_page|].
  change (re_sub_go m_page [] O None y) with (pass_page y). lia.
Qed.

(** C3 (amended).  A second application of the cleaner changes nothing
    exactly when the first result has no two spaces in a row, no space
    next to a hyphen and no [Page <digits>] token between word
    boundaries. *)
Theorem clean_text_idempotent_iff (x : str) :
  clean_text (clean_text x) = clean_text x
  <-> single_spaced (clean_text x) = true
      /\ hyphen_tight (clean_text x) = true
      /\ page_free (clean_text x) = true.
Proof.
  pose proof (clean_text_printable x) as Hp. split.
  - now apply clean_text_fixed_conditions.
  - intros (Hs & Ht & Hpage). apply clean_text_fixed; try assumption.
    unfold clean_text at 2. apply strip_idemp.
Qed.

Lemma clean_text_idempotent_iff_witness :
  clean_text (clean_text (str_of "Well - known  words, Page 12."))
  = clean_text (str_of "Well - known  words, Page 12.").
Proof.
  apply clean_text_idempotent_iff. vm_compute. repeat split; reflexivity.
Defined.

(** C3 as stated fails: from [a Page 1 b] the first application removes
    the page token and leaves [a  b] with the two spaces that stood around
    it; the second application collapses them to [a b]. *)
Lemma clean_text_not_idempotent :
  clean_text (str_of "a Page 1 b") = str_of "a  b"
  /\ clean_text (clean_text (str_of "a Page 1 b")) = str_of "a b"
  /\ clean_text (clean_text (str_of "a Page 1 b"))
     <> clean_text (str_of "a Page 1 b").
Proof.
  split; [vm_compute; reflexivity|].
  split; [vm_compute; reflexivity | vm_compute; discriminate].
Qed.

(** ** The pipeline *)

(** C6.  When the text gives no chunk there is no audio segment to
    assemble: [convert_text_to_speech] raises, as a [RuntimeError], and
    leaves every file as it was; nothing is exported.  With ffmpeg and a
    display present the error comes from the assembly step, the lookup of
    the first segment. *)
Theorem convert_text_to_speech_no_chunks (E : env) (text : str)
    (output_file language : string) (w : world) :
  split_text text default_max_chars = Some [] ->
  combine_segments [] = Raise (IndexError "list index out of range")
  /\ exists msg w',
       convert_text_to_speech E text output_file language w
       = (Raise (RuntimeError msg), w')
       /\ files w' = files w
       /\ (FFMPEG_AVAILABLE E = true -> display_available E = true ->
           msg = "Text-to-speech conversion failed: list index out of range").
Proof.
  intros Hchunks. split; [reflexivity|].
  unfold convert_text_to_speech, try_except.
  destruct (FFMPEG_AVAILABLE E) eqn:Hff; simpl.
  - rewrite Hchunks. destruct (display_available E) eqn:Hd; simpl.
    + eexists _, _. split; [reflexivity|]. split; [reflexivity|].
      reflexivity.
    + eexists _, _. split; [reflexivity|]. split; [reflexivity|].
      discriminate.
  - eexists _, _. split; [reflexivity|]. split; [reflexivity|]. discriminate.
Qed.

Lemma convert_text_to_speech_no_chunks_witness :
  exists msg w',
    convert_text_to_speech sample_env [] "out.mp3" "en" sample_world
    = (Raise (RuntimeError msg), w')
    /\ files w' = files sample_world
    /\ (FFMPEG_AVAILABLE sample_env = true ->
        display_available sample_env = true ->
        msg = "Text-to-speech conversion failed: list index out of range").
Proof.
  apply (convert_text_to_speech_no_chunks sample_env [] "out.mp3" "en").
  reflexivity.
Defined.

Lemma extract_text_from_pdf_ok (pdf_path : string) (w w1 : world)
    (text : str) :
  extract_text_from_pdf pdf_path w = (Ok text, w1) ->
  w1 = w /\ path_exists pdf_path w = true.
Proof.
  unfold extract_text_from_pdf, try_except, read_pdf, path_exists.
  destruct (files w !! pdf_path) as [[pages| |]|] eqn:Hf;
    cbn [fst snd]; try discriminate.
  destruct (extract_pages pages []); try discriminate.
  intros [= _ <-]. split; [reflexivity|].
  apply orb_true_iff. left. apply bool_decide_eq_true. eauto.
Qed.

(** C7.  When the extraction returns the empty string the entry point
    returns the pair of [False] and a message, without touching the world
    further; and on no input at all does the entry point raise. *)
Theorem convert_pdf_to_speech_empty_extraction (E : env)
    (pdf_path output_file language : string) (w : world) :
  (forall w1,
     extract_text_from_pdf pdf_path w = (Ok [], w1) ->
     convert_pdf_to_speech E pdf_path output_file language w
     = (Ok (false,
            "No text extracted from PDF. The file may be scanned or image-based."),
        w1))
  /\ (forall e w',
        convert_pdf_to_speech E pdf_path output_file language w
        <> (Raise e, w')).
Proof.
  split.
  - intros w1 Hx. destruct (extract_text_from_pdf_ok _ _ _ _ Hx) as [-> Hex].
    unfold convert_pdf_to_speech, try_except, bind, gets.
    rewrite Hex. simpl. rewrite Hx. reflexivity.
  - intros e w'. unfold convert_pdf_to_speech, try_except.
    match goal with |- context [bind ?c ?k w] => destruct (bind c k w) as [[r| |] w2] end;
      simpl; discriminate.
Qed.

Lemma convert_pdf_to_speech_empty_extraction_witness :
  convert_pdf_to_speech sample_env "scan.pdf" "out.mp3" "en" sample_world
  = (Ok (false,
         "No text extracted from PDF. The file may be scanned or image-based."),
     sample_world).
Proof.
  apply convert_pdf_to_speech_empty_extraction. vm_compute. reflexivity.
Defined.

(** C8 (the code at a speed outside the range).  [parse_args] hands on
    whatever value [-s] was given; with [-s 3.0] the conversion runs and
    the output is then rewritten at three times the frame rate: the
    sixteen samples of the sample text become five. *)
Theorem main_cli_speed_unchecked :
  (forall pdf out l (q : Q),
      speed (parse_args (CommandLine pdf out l (Some q))) = q)
  /\ ~ (1 # 2 <= 3 <= 2)%Q
  /\ (let '(r, w) :=
        main_cli sample_env (CommandLine "in.pdf" "out.mp3" None (Some 3%Q))
          sample_world in
      r = Ok tt
      /\ stdout w = ["Extracting text from PDF..."; "Adjusting playback speed...";
                     "Success: Conversion successful!";
                     "Audiobook saved to: out.mp3"]
      /\ files w !! "out.mp3"
         = Some (Mp3 (Audio 24000 (map Z.of_N (str_of "Hello"))))).
Proof.
  split; [reflexivity|]. split.
  - intros [_ H]. revert H. unfold Qle. simpl. lia.
  - vm_compute. repeat split; reflexivity.
Qed.

(** * Further properties *)

(** ** The cleaner *)

Lemma clean_text_strip_fixed (x : str) :
  lstrip (clean_text x) = clean_text x /\ rstrip (clean_text x) = clean_text x.
Proof.
  unfold clean_text, strip. split.
  - apply lstrip_fixed_rstrip, lstrip_idemp.
  - apply rstrip_idemp.
Qed.

(** X1.  The cleaned text neither begins nor ends with white space:
    trimming it again, on either side or on both, returns it as it is. *)
Theorem clean_text_trimmed (x : str) :
  strip (clean_text x) = clean_text x
  /\ lstrip (clean_text x) = clean_text x
  /\ rstrip (clean_text x) = clean_text x
  /\ (forall c, head (clean_text x) = Some c -> is_space c = false)
  /\ (forall c, last (clean_text x) = Some c -> is_space c = false).
Proof.
  destruct (clean_text_strip_fixed x) as [Hl Hr].
  split; [unfold strip; now rewrite Hl, Hr|]. split; [exact Hl|].
  split; [exact Hr|]. split.
  - intros c Hc. destruct (clean_text x) as [|c0 t] eqn:E; [discriminate|].
    injection Hc as ->. simpl in Hl. destruct (is_space c); [|reflexivity].
    pose proof (lstrip_length t) as Hlen.
    apply (f_equal (@length _)) in Hl. simpl in Hl. lia.
  - intros c Hc. apply rstrip_fixed_iff in Hr as [Hr|(s' & c' & Hr & Hsp)].
    + rewrite Hr in Hc. discriminate.
    + rewrite Hr, last_snoc in Hc. now injection Hc as <-.
Qed.

Lemma clean_text_trimmed_witness :
  is_space 119%N = false.
Proof.
  destruct (clean_text_trimmed (str_of "  well - known "))
    as (_ & _ & _ & Hhead & _).
  apply Hhead. vm_compute. reflexivity.
Defined.

(** X2.  The cleaner never lengthens a text: every pass replaces a match
    by something no longer than the match, and trimming only removes. *)
Theorem clean_text_length (x : str) :
  (length (clean_text x) <= length x)%nat.
Proof.
  unfold clean_text.
  etransitivity; [apply strip_length|].
  etransitivity; [apply re_sub_length, consuming_single_quote|].
  etransitivity; [apply re_sub_length, consuming_double_quote|].
  etransitivity; [apply re_sub_length, consuming_page|].
  etransitivity; [apply re_sub_length, consuming_hyphen|].
  etransitivity; [apply re_sub_length, consuming_nonprintable|].
  apply re_sub_length, consuming_spaces.
Qed.

(** A text all of spaces goes through the hyphen and the page pass as it
    is. *)
Lemma m_hyphen_spaces (prev : option char) (s : str) :
  Forall (fun c => c = 32%N) s -> m_hyphen prev s = None.
Proof.
  intros Hs. unfold m_hyphen.
  assert (span is_space s = length s) as ->.
  { induction Hs as [|c s -> _ IH]; simpl; [reflexivity | now rewrite IH]. }
  now rewrite drop_all.
Qed.

Lemma m_page_space (prev : option char) (s : str) :
  Forall (fun c => c = 32%N) s -> m_page prev s = None.
Proof.
  intros Hs. unfold m_page. destruct (word_boundary _ _); [|reflexivity].
  destruct Hs as [|c s -> _]; reflexivity.
Qed.

Lemma matches_nowhere_spaces (m : matcher) (s : str) :
  (forall prev t, Forall (fun c => c = 32%N) t -> m prev t = None) ->
  Forall (fun c => c = 32%N) s ->
  forall prev, matches_nowhere m prev s = true.
Proof.
  intros Hm Hs. induction Hs as [|c s Hc Hs IH]; intros prev; [reflexivity|].
  cbn [matches_nowhere]. rewrite Hm by now constructor. apply IH.
Qed.

Lemma pass_nonprintable_spaces (s : str) :
  Forall (fun c => is_space c = true \/ is_printable c = false) s ->
  forall prev,
    Forall (fun c => c = 32%N)
      (re_sub_go m_nonprintable (str_of " ") O prev s).
Proof.
  change (str_of " ") with [32%N].
  induction 1 as [|c s Hc _ IH]; intros prev; simpl; [constructor|].
  destruct (is_printable c) eqn:Ep.
  - constructor; [|apply IH]. destruct Hc as [Hc|Hc]; [|congruence].
    apply printable_space; [now apply is_printable_spec | exact Hc].
  - constructor; [reflexivity | apply IH].
Qed.

Lemma clean_text_spaces_only (x : str) :
  Forall (fun c => is_space c = true \/ is_printable c = false) x ->
  clean_text x = [].
Proof.
  intros Hx. unfold clean_text.
  assert (Forall (fun c => c = 32%N) (pass_nonprintable (pass_spaces x)))
    as Hs.
  { apply pass_nonprintable_spaces, re_sub_Forall; [|exact Hx].
    repeat constructor. }
  set (t := pass_nonprintable (pass_spaces x)) in *.
  assert (pass_hyphen t = t) as ->.
  { apply matches_nowhere_fixed, matches_nowhere_spaces;
      [apply m_hyphen_spaces | exact Hs]. }
  assert (pass_page t = t) as ->.
  { apply matches_nowhere_fixed, matches_nowhere_spaces;
      [apply m_page_space | exact Hs]. }
  assert (Forall printable t) as Hp
    by (eapply Forall_impl; [exact Hs|]; intros c ->; unfold printable; lia).
  rewrite quote_passes_id by exact Hp.
  unfold strip. rewrite lstrip_blank; [reflexivity|].
  eapply Forall_impl; [exact Hs|]. now intros c ->.
Qed.

(** X3.  A text without any printable character other than white space
    (white space, control characters, non-ASCII characters) is cleaned to
    the empty text. *)
Theorem clean_text_nothing_printable (x : str) :
  Forall (fun c => is_space c = true \/ is_printable c = false) x ->
  clean_text x = [].
Proof. apply clean_text_spaces_only. Qed.

Lemma clean_text_nothing_printable_witness :
  clean_text ([10; 9; 0; 233; 8220; 12288]%N ++ str_of "  ") = [].
Proof.
  apply clean_text_nothing_printable. vm_compute.
  repeat (constructor; [first [left; reflexivity | right; reflexivity]|]).
  constructor.
Defined.

Lemma re_sub_go_Forall_match (m : matcher) (repl : str) (Q : char -> Prop) :
  (forall prev t n, m prev t = Some n -> Forall Q t -> Forall Q repl) ->
  forall s skip prev, Forall Q s -> Forall Q (re_sub_go m repl skip prev s).
Proof.
  intros Hm s. induction s as [|c s IH]; intros skip prev Hs; cbn [re_sub_go];
    [constructor|].
  pose proof Hs as Hcs. inversion Hs as [|? ? Hc Hs']; subst.
  destruct skip as [|k]; [|now apply IH].
  destruct (m prev (c :: s)) as [[|n]|] eqn:E.
  - apply Forall_app. split; [eapply Hm; eauto|]. constructor; auto.
  - apply Forall_app. split; [eapply Hm; eauto | auto].
  - constructor; auto.
Qed.

Lemma m_hyphen_has_hyphen (prev : option char) (t : str) (n : nat) :
  m_hyphen prev t = Some n -> In 45%N t.
Proof.
  unfold m_hyphen. destruct (drop (span is_space t) t) as [|c r] eqn:E;
    [discriminate|].
  destruct (c =? 45)%N eqn:Ec; [|discriminate]. intros _.
  apply N.eqb_eq in Ec. subst c.
  rewrite <- (take_drop (span is_space t) t), E. apply in_or_app. right.
  now left.
Qed.

(** X25.  The cleaner invents no text: every character of its result
    other than the space occurs in its input. *)
Theorem clean_text_no_new_characters (x : str) :
  Forall (fun c => c = 32%N \/ In c x) (clean_text x).
Proof.
  set (Q := fun c : N => c = 32%N \/ In c x).
  assert (Forall Q x) as Hx by (apply List.Forall_forall; intros c Hc; now right).
  assert (Forall Q [32%N]) as Hsp by (repeat constructor).
  unfold clean_text. apply strip_Forall.
  assert (Forall Q (pass_hyphen (pass_nonprintable (pass_spaces x)))) as Hh.
  { apply re_sub_go_Forall_match.
    - intros prev t n Hm Ht. apply m_hyphen_has_hyphen in Hm.
      rewrite List.Forall_forall in Ht. change (str_of "-") with [45%N].
      constructor; [now apply Ht | constructor].
    - apply re_sub_Forall; [exact Hsp|]. now apply re_sub_Forall. }
  assert (Forall Q (pass_page (pass_hyphen (pass_nonprintable (pass_spaces x)))))
    as Hp by (apply re_sub_Forall; [constructor | exact Hh]).
  now rewrite quote_passes_id by apply before_quotes_printable.
Qed.

(** ** The chunker *)

Lemma rfind_absent (text : str) (c : char) (start stop : Z) :
  ~ In c text -> rfind text c start stop = -1.
Proof.
  intros Hc. unfold rfind.
  destruct (rfind_go_spec c text 0 (clamp_index (len text) start)
              (clamp_index (len text) stop) (-1))
    as [[Hr _]|(n & _ & Hn & _)]; [exact Hr|].
  exfalso. apply Hc. apply list_elem_of_In. eapply list_elem_of_lookup_2, Hn.
Qed.

Lemma find_split_app_absent (bs others : list char) (text : str)
    (max_chars : Z) :
  Forall (fun b => ~ In b text) others ->
  find_split (bs ++ others) text max_chars = find_split bs text max_chars.
Proof.
  intros Ho. induction bs as [|b bs IH]; simpl.
  - induction Ho as [|b others Hb _ IH]; simpl; [reflexivity|].
    rewrite (rfind_absent text b 0 max_chars Hb). exact IH.
  - now rewrite IH.
Qed.

(** X4.  On a text made of [\x20-\x7E], which is what the cleaner hands
    to the chunker, only [. ! ? ;] can decide a split: the newline and the
    four full-width boundaries never do, for any [max_chars]. *)
Theorem split_index_printable (text : str) (max_chars : Z) :
  Forall (fun c => (32 <= c <= 126)%N) text ->
  split_index text max_chars = find_split ascii_boundaries text max_chars.
Proof.
  intros Hp. unfold split_index.
  change boundaries
    with (ascii_boundaries ++ [10; 12290; 65281; 65311; 65307]%N).
  apply find_split_app_absent.
  rewrite List.Forall_forall in Hp.
  repeat (constructor; [intros Hin; apply Hp in Hin; lia|]).
  constructor.
Qed.

Lemma split_index_printable_witness :
  split_index (str_of "Hi. Ok") 4 = find_split ascii_boundaries (str_of "Hi. Ok") 4.
Proof.
  apply split_index_printable.
  change (str_of "Hi. Ok") with [72; 105; 46; 32; 79; 107]%N.
  repeat (constructor; [lia|]). constructor.
Defined.

(** X5.  The chunker returns no chunk at all for the empty text and only
    for it, whatever [max_chars] is: a text of white space alone still
    gives a chunk. *)
Theorem split_text_empty_iff (text : str) (max_chars : Z) :
  split_text text max_chars = Some [] <-> text = [].
Proof.
  split.
  - intros H. apply split_loop_extends in H as (cs & Hcs & Hne).
    destruct text as [|c t]; [reflexivity|].
    destruct cs; [exfalso; now apply Hne | discriminate].
  - intros ->. reflexivity.
Qed.

Lemma split_text_empty_iff_witness :
  split_text [] 7 = Some [] /\ split_text (str_of " ") 7 = Some [str_of " "].
Proof.
  split; [now apply split_text_empty_iff | reflexivity].
Defined.

(** X6.  Whenever the loop of the chunker ends, it has ended within
    [len(text) + 1] iterations, for every [max_chars], also zero and
    negative ones: a run of the loop that returns, however long it is
    allowed to be, returns what [split_text] returns, and where
    [split_text] has no result no run of the loop returns. *)
Theorem split_text_adequate (text : str) (max_chars : Z) :
  (forall fuel r,
      split_loop fuel text max_chars [] = Some r ->
      split_text text max_chars = Some r)
  /\ (split_text text max_chars = None ->
      forall fuel, split_loop fuel text max_chars [] = None).
Proof.
  split.
  - intros fuel r H. now apply split_loop_fuel_enough in H.
  - intros Hnone fuel.
    destruct (split_loop fuel text max_chars []) as [r|] eqn:E;
      [|reflexivity].
    apply split_loop_fuel_enough in E. unfold split_text in Hnone. congruence.
Qed.

Lemma split_text_adequate_witness :
  split_text (str_of "a. b. c") 3 = Some [str_of "a."; str_of "b."; str_of "c"]
  /\ forall fuel, split_loop fuel (str_of "a. b") (-2) [] = None.
Proof.
  split.
  - apply (proj1 (split_text_adequate (str_of "a. b. c") 3) 50%nat).
    vm_compute. reflexivity.
  - apply (proj2 (split_text_adequate (str_of "a. b") (-2))). vm_compute.
    reflexivity.
Defined.

Lemma lstrip_fixed_take (s : str) (n : nat) :
  lstrip s = s -> lstrip (take n s) = take n s.
Proof.
  destruct n as [|n]; [reflexivity|]. destruct s as [|c s]; [reflexivity|].
  simpl. destruct (is_space c); [|reflexivity].
  intros H. pose proof (lstrip_length s) as Hl.
  apply (f_equal (@length _)) in H. simpl in H. lia.
Qed.

Lemma strip_lstrip_fixed (s : str) : lstrip (strip s) = strip s.
Proof. unfold strip. apply lstrip_fixed_rstrip, lstrip_idemp. Qed.

(** What every chunk inherits from the text: the characters, and from the
    second chunk on a start that is not white space. *)
Lemma split_loop_chunks (P : char -> Prop) (max_chars : Z) :
  forall fuel text chunks r,
    split_loop fuel text max_chars chunks = Some r ->
    Forall P text ->
    exists cs,
      r = chunks ++ cs /\ Forall (Forall P) cs
      /\ Forall (fun c => lstrip c = c) (tail cs)
      /\ (lstrip text = text -> Forall (fun c => lstrip c = c) cs).
Proof.
  induction fuel as [|fuel IH]; intros text chunks r H HP; [discriminate|].
  destruct text as [|c0 t] eqn:Etext; cbn [split_loop] in H.
  { injection H as <-. exists []. rewrite app_nil_r.
    repeat split; constructor. }
  rewrite <- Etext in *. clear Etext.
  destruct (len text <=? max_chars).
  { injection H as <-. exists [text].
    repeat split; repeat constructor; assumption. }
  apply IH in H as (cs & -> & Hcs & _ & Hl).
  - specialize (Hl (strip_lstrip_fixed _)).
    exists (slice_to text (split_index text max_chars) :: cs).
    rewrite <- app_assoc. repeat split.
    + constructor; [apply Forall_take, HP | exact Hcs].
    + exact Hl.
    + intros Ht. constructor; [now apply lstrip_fixed_take | exact Hl].
  - apply strip_Forall. unfold slice_from. apply Forall_drop, HP.
Qed.

(** X7.  From the second chunk on no chunk begins with white space, for
    every text and every [max_chars]; when the text itself does not begin
    with white space this holds for the first chunk too. *)
Theorem split_text_chunks_start (text : str) (max_chars : Z)
    (chunks : list str) :
  split_text text max_chars = Some chunks ->
  Forall (fun chunk => lstrip chunk = chunk) (tail chunks)
  /\ (lstrip text = text -> Forall (fun chunk => lstrip chunk = chunk) chunks).
Proof.
  intros H.
  apply (split_loop_chunks (fun _ => True)) in H as (cs & -> & _ & Ht & Hl).
  - split; assumption.
  - apply Forall_forall. trivial.
Qed.

Lemma split_text_chunks_start_witness :
  Forall (fun chunk => lstrip chunk = chunk)
    (tail [str_of " One."; str_of "Two  t"; str_of "hree"]).
Proof.
  refine (proj1 (split_text_chunks_start (str_of " One.   Two  three") 6
                   [str_of " One."; str_of "Two  t"; str_of "hree"] _)).
  vm_compute. reflexivity.
Defined.

(** X8.  What the synthesizer is given: the cleaned text is always cut
    into chunks, each of them non-empty, of at most 1000 characters, all
    in [\x20-\x7E] and not beginning with white space; there is no chunk
    exactly when the cleaned text is empty. *)
Theorem split_text_of_clean_text (x : str) :
  exists chunks,
    split_text (clean_text x) default_max_chars = Some chunks
    /\ Forall (fun chunk =>
                 chunk <> [] /\ len chunk <= 1000
                 /\ Forall (fun c => (32 <= c <= 126)%N) chunk
                 /\ lstrip chunk = chunk) chunks
    /\ (chunks = [] <-> clean_text x = []).
Proof.
  destruct (split_loop_run default_max_chars ltac:(unfold default_max_chars; lia)
              (S (length (clean_text x))) (clean_text x) [])
    as (cs & _ & _ & Hrun & Hcs & _); [lia|].
  exists cs. split; [exact Hrun|].
  pose proof Hrun as Hrun'.
  apply (split_loop_chunks printable) in Hrun'
    as (cs' & Hcs' & Hp & _ & Hl); [|apply clean_text_printable].
  simpl in Hcs'. subst cs'.
  specialize (Hl (proj1 (clean_text_strip_fixed x))).
  split.
  - apply Forall_forall. intros c Hc.
    rewrite Forall_forall in Hcs, Hp, Hl.
    destruct (Hcs c Hc) as [Hne Hlen]. repeat split; auto.
  - pose proof (split_loop_extends _ _ _ _ _ Hrun) as (cs' & E & Hne).
    simpl in E. subst cs'. split.
    + intros ->. destruct (clean_text x) as [|c t] eqn:Ex; [reflexivity|].
      exfalso. now apply Hne.
    + intros E. rewrite E in Hrun. now injection Hrun as <-.
Qed.

(** ** Extraction *)

Lemma extract_pages_texts (texts : list str) :
  forall text,
    extract_pages (map PageText texts) text
    = Ok (text ++ concat (map page_line texts)).
Proof.
  induction texts as [|t texts IH]; intros text; cbn [map concat extract_pages].
  - now rewrite app_nil_r.
  - destruct t as [|c t]; rewrite IH; [reflexivity|].
    change (page_line (c :: t)) with ((c :: t) ++ [10%N]).
    now rewrite <- !app_assoc.
Qed.

Lemma concat_page_lines_nil (texts : list str) :
  concat (map page_line texts) = [] <-> Forall (fun t => t = []) texts.
Proof.
  induction texts as [|t texts IH]; simpl.
  - split; [constructor | reflexivity].
  - split.
    + intros H. apply app_eq_nil in H as [Ht H]. constructor; [|now apply IH].
      destruct t; [reflexivity | discriminate].
    + intros H. inversion H; subst. simpl. now apply IH.
Qed.

(** X9.  For a readable PDF none of whose pages fails, the extracted text
    is the texts of the pages that have text, in page order, each followed
    by a newline; it is empty exactly when no page has text; and the world
    is left as it was. *)
Theorem extract_text_from_pdf_pages (pdf_path : string) (w : world)
    (texts : list str) :
  files w !! pdf_path = Some (Pdf (map PageText texts)) ->
  extract_text_from_pdf pdf_path w
  = (Ok (concat (map page_line texts)), w)
  /\ (concat (map page_line texts) = [] <-> Forall (fun t => t = []) texts)
  /\ Forall (fun t => t <> [] ->
               exists before after,
                 concat (map page_line texts)
                 = before ++ t ++ [10%N] ++ after) texts.
Proof.
  intros Hf. split; [|split].
  - unfold extract_text_from_pdf, try_except, read_pdf. rewrite Hf.
    now rewrite extract_pages_texts.
  - apply concat_page_lines_nil.
  - clear Hf. induction texts as [|t texts IH]; constructor.
    + intros Hne. exists [], (concat (map page_line texts)). simpl.
      destruct t; [congruence|]. simpl. now rewrite <- app_assoc.
    + eapply Forall_impl; [exact IH|]. simpl.
      intros t' H Hne. destruct (H Hne) as (before & after & ->).
      now exists (page_line t ++ before), after; rewrite <- app_assoc.
Qed.

Lemma extract_text_from_pdf_pages_witness :
  extract_text_from_pdf "in.pdf" sample_world
  = (Ok (str_of "Hello world. Bye" ++ [10%N]), sample_world).
Proof.
  refine (proj1 (extract_text_from_pdf_pages "in.pdf" sample_world
                   [str_of "Hello world. Bye"; []] _)).
  vm_compute. reflexivity.
Defined.

Lemma extract_text_from_pdf_cases (pdf_path : string) (w : world) :
  (exists text, extract_text_from_pdf pdf_path w = (Ok text, w))
  \/ (exists why,
        extract_text_from_pdf pdf_path w
        = (Raise (RuntimeError ("PDF extraction failed: " +:+ why)),
           logged ("PDF extraction failed: " +:+ why) w)).
Proof.
  unfold extract_text_from_pdf, try_except, read_pdf.
  destruct (files w !! pdf_path) as [[pages| |]|].
  - destruct (extract_pages pages []) as [text|e|] eqn:E.
    + left. eauto.
    + right. exists (exn_str e). reflexivity.
    + exfalso. clear -E. revert E. generalize (@nil N).
      induction pages as [|[t|why] pages IH]; intros acc; simpl;
        try discriminate.
      destruct t; apply IH.
  - right. eexists. reflexivity.
  - right. eexists. reflexivity.
  - right. eexists. reflexivity.
Qed.

(** X10.  [extract_text_from_pdf] either returns, leaving the world as it
    is, or raises a [RuntimeError] whose message begins with
    [PDF extraction failed: ], after writing that same message to the
    log and nothing else; a missing file, a file that is no PDF and a page
    that fails all end this way. *)
Theorem extract_text_from_pdf_outcome (pdf_path : string) (w : world) :
  (exists text, extract_text_from_pdf pdf_path w = (Ok text, w))
  \/ (exists why,
        extract_text_from_pdf pdf_path w
        = (Raise (RuntimeError ("PDF extraction failed: " +:+ why)),
           logged ("PDF extraction failed: " +:+ why) w)).
Proof. apply extract_text_from_pdf_cases. Qed.

(** ** Synthesis and assembly *)

Lemma synthesize_chunks_ends (E : env) (language : string)
    (chunks : list str) :
  forall audio_segments temp_files w,
    (synthesize_chunks E language chunks audio_segments temp_files w).1.1
    <> Diverge.
Proof.
  induction chunks as [|chunk chunks IH]; intros segs temps w; simpl;
    [discriminate|].
  destruct (gtts_init E chunk language); simpl; [|discriminate].
  destruct (tts_save E chunk language) as [f|]; simpl; [|discriminate].
  destruct (_ || _); simpl; [discriminate|].
  unfold from_mp3. simpl. rewrite lookup_insert_eq.
  destruct f; simpl; try discriminate. apply IH.
Qed.

Lemma split_text_default_total (text : str) :
  exists chunks, split_text text default_max_chars = Some chunks.
Proof.
  destruct (split_loop_run default_max_chars
              ltac:(unfold default_max_chars; lia)
              (S (length text)) text [])
    as (cs & _ & _ & Hrun & _); [lia|].
  now exists cs.
Qed.

Lemma convert_text_to_speech_cases (E : env) (text : str)
    (output_file language : string) (w : world) :
  (exists w',
      convert_text_to_speech E text output_file language w = (Ok true, w'))
  \/ (exists why w',
        convert_text_to_speech E text output_file language w
        = (Raise (RuntimeError
                    ("Text-to-speech conversion failed: " +:+ why)), w')
        /\ last (logfile w')
           = Some ("Text-to-speech conversion failed: " +:+ why)).
Proof.
  unfold convert_text_to_speech, try_except.
  destruct (FFMPEG_AVAILABLE E); simpl;
    [|right; eexists _, _; split; [reflexivity | apply last_snoc]].
  destruct (split_text_default_total text) as (chunks & ->).
  destruct (display_available E); simpl;
    [|right; eexists _, _; split; [reflexivity | apply last_snoc]].
  unfold synthesize_and_export.
  pose proof (synthesize_chunks_ends E language chunks [] [] w) as Hend.
  destruct (synthesize_chunks E language chunks [] [] w) as [[r temps] w1].
  simpl in Hend.
  unfold try_finally, try_except, bind, gets, ret, raise, logging_error,
    modify, export.
  destruct r as [segs|e|]; [| |congruence]; simpl.
  - destruct (combine_segments segs) as [a|e|] eqn:Ec; simpl.
    + destruct (writable E output_file); simpl.
      * destruct (_ || _); simpl.
        -- right. eexists _, _. split; [reflexivity | apply last_snoc].
        -- left. eexists. reflexivity.
      * right. eexists _, _. split; [reflexivity | apply last_snoc].
    + right. eexists _, _. split; [reflexivity | apply last_snoc].
    + destruct segs; discriminate.
  - right. eexists _, _. split; [reflexivity | apply last_snoc].
Qed.

(** X11.  [convert_text_to_speech] always ends, in one of two ways: it
    returns [True], or it raises a [RuntimeError] whose message begins
    with [Text-to-speech conversion failed: ] and is the last line written
    to the log.  No other exception leaves it. *)
Theorem convert_text_to_speech_outcome (E : env) (text : str)
    (output_file language : string) (w : world) :
  (exists w',
      convert_text_to_speech E text output_file language w = (Ok true, w'))
  \/ (exists why w',
        convert_text_to_speech E text output_file language w
        = (Raise (RuntimeError
                    ("Text-to-speech conversion failed: " +:+ why)), w')
        /\ last (logfile w')
           = Some ("Text-to-speech conversion failed: " +:+ why)).
Proof. apply convert_text_to_speech_cases. Qed.

(** ** The entry point *)

(** X12.  For a path at which nothing exists the entry point returns
    [False] with the message [PDF to speech conversion failed: PDF file
    not found: <path>]; it writes that message to the log and touches
    nothing else: the extraction is not tried and no file is made. *)
Theorem convert_pdf_to_speech_missing (E : env)
    (pdf_path output_file language : string) (w : world) :
  path_exists pdf_path w = false ->
  convert_pdf_to_speech E pdf_path output_file language w
  = (Ok (false,
         "PDF to speech conversion failed: PDF file not found: "
         +:+ pdf_path),
     logged ("PDF to speech conversion failed: PDF file not found: "
             +:+ pdf_path) w).
Proof.
  intros H. unfold convert_pdf_to_speech, try_except, bind, gets.
  rewrite H. reflexivity.
Qed.

Lemma convert_pdf_to_speech_missing_witness :
  convert_pdf_to_speech sample_env "none.pdf" "out.mp3" "en" sample_world
  = (Ok (false,
         "PDF to speech conversion failed: PDF file not found: none.pdf"),
     logged "PDF to speech conversion failed: PDF file not found: none.pdf"
       sample_world).
Proof.
  apply (convert_pdf_to_speech_missing sample_env "none.pdf").
  vm_compute. reflexivity.
Defined.

Lemma convert_pdf_to_speech_text (E : env)
    (pdf_path output_file language : string) (w : world) (raw_text : str) :
  extract_text_from_pdf pdf_path w = (Ok raw_text, w) ->
  raw_text <> [] ->
  convert_pdf_to_speech E pdf_path output_file language w
  = match convert_text_to_speech E (clean_text raw_text) output_file
            language w with
    | (Ok _, w') => (Ok (true, "Conversion successful!"), w')
    | (Raise e, w') =>
        (Ok (false, "PDF to speech conversion failed: " +:+ exn_str e),
         logged ("PDF to speech conversion failed: " +:+ exn_str e) w')
    | (Diverge, w') => (Diverge, w')
    end.
Proof.
  intros Hx Hne. destruct (extract_text_from_pdf_ok _ _ _ _ Hx) as [_ Hex].
  unfold convert_pdf_to_speech, try_except, bind, gets.
  rewrite Hex. simpl. rewrite Hx.
  destruct raw_text as [|c t]; [congruence|].
  destruct (convert_text_to_speech E (clean_text (c :: t)) output_file
              language w) as [[b|e|] w']; reflexivity.
Qed.

(** X13.  Without ffmpeg a PDF that has text is not converted: the entry
    point returns [False] with the ffmpeg message behind the prefixes of
    the two functions it went through, after two lines in the log; no
    speech is requested and no file, temporary or final, is made. *)
Theorem convert_pdf_to_speech_no_ffmpeg (E : env)
    (pdf_path output_file language : string) (w : world) (raw_text : str) :
  FFMPEG_AVAILABLE E = false ->
  extract_text_from_pdf pdf_path w = (Ok raw_text, w) ->
  raw_text <> [] ->
  exists w',
    convert_pdf_to_speech E pdf_path output_file language w
    = (Ok (false,
           "PDF to speech conversion failed: Text-to-speech conversion failed: ffmpeg is required but not found. Please install ffmpeg and add it to PATH."),
       w')
    /\ files w' = files w /\ tmp_counter w' = tmp_counter w
    /\ length (logfile w') = (length (logfile w) + 2)%nat.
Proof.
  intros Hff Hx Hne.
  rewrite (convert_pdf_to_speech_text _ _ _ _ _ _ Hx Hne).
  unfold convert_text_to_speech, try_except. rewrite Hff. simpl.
  eexists. split; [reflexivity|]. simpl.
  rewrite !length_app. simpl. repeat split; lia.
Qed.

Lemma convert_pdf_to_speech_no_ffmpeg_witness :
  exists w',
    convert_pdf_to_speech
      (Env false true (gtts_init sample_env) (tts_save sample_env)
         (writable sample_env) (can_makedirs sample_env) (ratecv sample_env)
         (abspath sample_env))
      "in.pdf" "out.mp3" "en" sample_world
    = (Ok (false,
           "PDF to speech conversion failed: Text-to-speech conversion failed: ffmpeg is required but not found. Please install ffmpeg and add it to PATH."),
       w')
    /\ files w' = files sample_world
    /\ tmp_counter w' = tmp_counter sample_world
    /\ length (logfile w') = (length (logfile sample_world) + 2)%nat.
Proof.
  apply (convert_pdf_to_speech_no_ffmpeg _ "in.pdf" "out.mp3" "en"
           sample_world (str_of "Hello world. Bye" ++ [10%N]));
    [reflexivity | vm_compute; reflexivity | discriminate].
Defined.

(** X14.  A PDF whose text is not empty but holds nothing printable
    besides white space (only line breaks, say) passes the test for an
    empty extraction, is cleaned to the empty text and then fails in the
    assembly: with ffmpeg and a display present the entry point returns
    [False] with the message of the index error, not the message for a
    PDF without text, and no file is made. *)
Theorem convert_pdf_to_speech_blank_text (E : env)
    (pdf_path output_file language : string) (w : world) (raw_text : str) :
  FFMPEG_AVAILABLE E = true -> display_available E = true ->
  extract_text_from_pdf pdf_path w = (Ok raw_text, w) ->
  raw_text <> [] ->
  Forall (fun c => is_space c = true \/ is_printable c = false) raw_text ->
  exists w',
    convert_pdf_to_speech E pdf_path output_file language w
    = (Ok (false,
           "PDF to speech conversion failed: Text-to-speech conversion failed: list index out of range"),
       w')
    /\ files w' = files w.
Proof.
  intros Hff Hd Hx Hne Hblank.
  rewrite (convert_pdf_to_speech_text _ _ _ _ _ _ Hx Hne).
  rewrite (clean_text_spaces_only raw_text Hblank).
  unfold convert_text_to_speech, try_except. rewrite Hff, Hd. simpl.
  eexists. split; reflexivity.
Qed.

Lemma convert_pdf_to_speech_blank_text_witness :
  exists w',
    convert_pdf_to_speech sample_env "blank.pdf" "out.mp3" "en"
      (World {[ "blank.pdf" := Pdf [PageText [32%N]; PageText [12%N]] ]}
         ∅ [] [] 0)
    = (Ok (false,
           "PDF to speech conversion failed: Text-to-speech conversion failed: list index out of range"),
       w')
    /\ files w'
       = files (World {[ "blank.pdf" := Pdf [PageText [32%N]; PageText [12%N]] ]}
                  ∅ [] [] 0).
Proof.
  apply (convert_pdf_to_speech_blank_text sample_env "blank.pdf" "out.mp3"
           "en" _ [32; 10; 12; 10]%N);
    [reflexivity | reflexivity | vm_compute; reflexivity | discriminate |].
  repeat (constructor; [left; reflexivity|]). constructor.
Defined.

(** ** Temporary files and the exported file *)

Lemma lookup_remove_temp_files (temp_files : list string)
    (fs : gmap string file) (k : string) :
  foldl (fun fs temp_file => delete temp_file fs) fs temp_files !! k
  = if decide (k ∈ temp_files) then None else fs !! k.
Proof.
  revert fs. induction temp_files as [|t ts IH]; intros fs; cbn [foldl].
  - case_decide as H; [now apply elem_of_nil in H | reflexivity].
  - rewrite IH. destruct (decide (k ∈ ts)) as [Hin|Hout].
    + rewrite decide_True by (apply elem_of_cons; auto). reflexivity.
    + destruct (decide (k = t)) as [->|Hne].
      * rewrite decide_True by (apply elem_of_cons; auto).
        apply lookup_delete_eq.
      * rewrite decide_False by (rewrite elem_of_cons; tauto).
        now apply lookup_delete_ne.
Qed.

Lemma elem_of_tmp_names (k : string) (from n : nat) :
  k ∈ tmp_names from n <-> exists i, (from <= i < from + n)%nat /\ k = tmp_name i.
Proof.
  unfold tmp_names. rewrite list_elem_of_fmap. split.
  - intros (i & -> & Hi). apply elem_of_seq in Hi. eauto.
  - intros (i & Hi & ->). exists i. split; [reflexivity|].
    now apply elem_of_seq.
Qed.

Lemma lookup_insert_segments (segments : list audio) :
  forall from fs k,
    k ∉ tmp_names from (length segments) ->
    insert_segments from segments fs !! k = fs !! k.
Proof.
  induction segments as [|a segments IH]; intros from fs k Hk; simpl;
    [reflexivity|].
  rewrite IH.
  - apply lookup_insert_ne. intros <-. apply Hk, elem_of_tmp_names.
    exists from. simpl. split; [lia | reflexivity].
  - intros Hin. apply Hk. apply elem_of_tmp_names in Hin as (i & Hi & ->).
    apply elem_of_tmp_names. exists i. simpl. split; [lia | reflexivity].
Qed.

(** The loop over the chunks when every chunk is spoken and decoded. *)
Lemma synthesize_chunks_ok (E : env) (language : string)
    (chunks : list str) (segments : list audio) :
  Forall2 (speech_ok E language) chunks segments ->
  forall audio_segments temp_files w,
    synthesize_chunks E language chunks audio_segments temp_files w
    = (Ok (audio_segments ++ segments),
       temp_files ++ tmp_names (tmp_counter w) (length chunks),
       World (insert_segments (tmp_counter w) segments (files w)) (dirs w)
         (stdout w) (logfile w) (tmp_counter w + length chunks)).
Proof.
  induction 1 as [|chunk a chunks segments [Hinit Hsave] _ IH];
    intros segs temps w.
  - simpl. rewrite !app_nil_r, Nat.add_0_r. now destruct w.
  - cbn [synthesize_chunks]. rewrite Hinit, Hsave. cbn [negb].
    unfold named_temporary_file, set_files, path_exists, getsize, from_mp3.
    cbn [files dirs stdout logfile tmp_counter].
    rewrite insert_insert_eq, !lookup_insert_eq.
    rewrite bool_decide_eq_true_2 by eauto. cbn [negb orb file_size Nat.eqb].
    rewrite IH. cbn [files dirs stdout logfile tmp_counter length].
    rewrite <- !app_assoc. cbn [insert_segments].
    replace (tmp_counter w + S (length chunks))%nat
      with (S (tmp_counter w) + length chunks)%nat by lia.
    reflexivity.
Qed.

Lemma foldl_audio_add (others : list audio) :
  forall first,
    foldl audio_add first others
    = Audio (frame_rate first)
        (raw_data first ++ concat (map raw_data others)).
Proof.
  induction others as [|a others IH]; intros first; simpl.
  - rewrite app_nil_r. now destruct first.
  - rewrite IH. simpl. now rewrite <- app_assoc.
Qed.

Lemma convert_text_to_speech_ok (E : env) (text : str)
    (output_file language : string) (w : world) (chunks : list str)
    (first : audio) (others : list audio) :
  FFMPEG_AVAILABLE E = true -> display_available E = true ->
  split_text text default_max_chars = Some chunks ->
  Forall2 (speech_ok E language) chunks (first :: others) ->
  writable E output_file = true ->
  (forall i, output_file <> tmp_name i) ->
  (forall i, (tmp_counter w <= i)%nat -> files w !! tmp_name i = None) ->
  convert_text_to_speech E text output_file language w
  = (Ok true,
     World (<[output_file :=
                Mp3 (Audio (frame_rate first)
                       (concat (map raw_data (first :: others))))]> (files w))
       (dirs w) (stdout w) (logfile w) (tmp_counter w + length chunks)).
Proof.
  intros Hff Hd Hchunks Hok Hw Hout Hfresh.
  unfold convert_text_to_speech, try_except. rewrite Hff, Hchunks, Hd.
  cbn [negb]. unfold synthesize_and_export.
  rewrite (synthesize_chunks_ok E language chunks (first :: others) Hok).
  unfold try_finally, try_except, bind, gets, ret, export, combine_segments.
  cbn [app]. rewrite Hw. unfold set_files, path_exists, getsize.
  cbn [files dirs stdout logfile tmp_counter].
  rewrite lookup_insert_eq, bool_decide_eq_true_2 by eauto.
  cbn [negb orb file_size Nat.eqb]. unfold remove_temp_files, set_files.
  cbn [files dirs stdout logfile tmp_counter]. rewrite foldl_audio_add.
  f_equal. f_equal. apply map_eq. intros k.
  rewrite lookup_remove_temp_files.
  destruct (decide (k ∈ tmp_names (tmp_counter w) (length chunks)))
    as [Hin|Hnot].
  - apply elem_of_tmp_names in Hin as (i & Hi & ->).
    rewrite lookup_insert_ne by apply Hout. symmetry. apply Hfresh. lia.
  - destruct (decide (k = output_file)) as [->|Hne].
    + now rewrite !lookup_insert_eq.
    + rewrite !lookup_insert_ne by congruence.
      apply lookup_insert_segments.
      now rewrite <- (Forall2_length _ _ _ Hok).
Qed.

(** X15.  When every chunk is spoken and decoded and the output path can
    be written, [convert_text_to_speech] returns [True] and leaves exactly
    one change in the files: the output file holds the samples of all
    segments in chunk order under the frame rate of the first one.  Every
    temporary file is gone again, and nothing is written to the log. *)
Theorem convert_text_to_speech_success (E : env) (text : str)
    (output_file language : string) (w : world) (chunks : list str)
    (first : audio) (others : list audio) :
  FFMPEG_AVAILABLE E = true -> display_available E = true ->
  split_text text default_max_chars = Some chunks ->
  Forall2 (speech_ok E language) chunks (first :: others) ->
  writable E output_file = true ->
  (forall i, output_file <> tmp_name i) ->
  (forall i, (tmp_counter w <= i)%nat -> files w !! tmp_name i = None) ->
  convert_text_to_speech E text output_file language w
  = (Ok true,
     World (<[output_file :=
                Mp3 (Audio (frame_rate first)
                       (concat (map raw_data (first :: others))))]> (files w))
       (dirs w) (stdout w) (logfile w) (tmp_counter w + length chunks)).
Proof. apply convert_text_to_speech_ok. Qed.

Lemma convert_text_to_speech_success_witness :
  convert_text_to_speech sample_env (str_of "Hi. Ok") "out.mp3" "en"
    sample_world
  = (Ok true,
     World (<["out.mp3" :=
                Mp3 (Audio 24000 (map Z.of_N (str_of "Hi. Ok")))]>
              (files sample_world))
       (dirs sample_world) (stdout sample_world) (logfile sample_world) 1).
Proof.
  refine (convert_text_to_speech_success sample_env (str_of "Hi. Ok")
            "out.mp3" "en" sample_world [str_of "Hi. Ok"]
            (Audio 24000 (map Z.of_N (str_of "Hi. Ok"))) [] _ _ _ _ _ _ _).
  - reflexivity.
  - reflexivity.
  - vm_compute. reflexivity.
  - repeat constructor.
  - reflexivity.
  - intros i. unfold tmp_name. simpl. discriminate.
  - intros i _. unfold sample_world. cbn [files].
    rewrite lookup_insert_ne by (unfold tmp_name; simpl; discriminate).
    apply lookup_singleton_ne. unfold tmp_name. simpl. discriminate.
Defined.

(** X16.  When the request for the speech of the first chunk fails, the
    call raises, and the temporary file made for that chunk stays behind:
    it was created before the request and is entered in the list of files
    to remove only after it.  Nothing else changes in the files. *)
Theorem convert_text_to_speech_leaves_temp_file (E : env) (text : str)
    (output_file language : string) (w : world) (chunk : str)
    (chunks : list str) :
  FFMPEG_AVAILABLE E = true -> display_available E = true ->
  split_text text default_max_chars = Some (chunk :: chunks) ->
  gtts_init E chunk language = true ->
  tts_save E chunk language = None ->
  exists why w',
    convert_text_to_speech E text output_file language w
    = (Raise (RuntimeError why), w')
    /\ files w' = <[tmp_name (tmp_counter w) := Other 0]> (files w)
    /\ is_Some (files w' !! tmp_name (tmp_counter w)).
Proof.
  intros Hff Hd Hchunks Hinit Hsave.
  unfold convert_text_to_speech, try_except. rewrite Hff, Hchunks, Hd.
  cbn [negb]. unfold synthesize_and_export. cbn [synthesize_chunks].
  rewrite Hinit, Hsave. cbn [negb]. simpl.
  eexists _, _. split; [reflexivity|]. simpl.
  split; [reflexivity|]. rewrite lookup_insert_eq. eauto.
Qed.

Lemma convert_text_to_speech_leaves_temp_file_witness :
  exists why w',
    convert_text_to_speech
      (Env true true (fun _ _ => true) (fun _ _ => None) (fun _ => true)
         (fun _ => true) (fun _ _ _ => None) (fun path => path))
      (str_of "Hi. Ok") "out.mp3" "en" sample_world
    = (Raise (RuntimeError why), w')
    /\ files w' = <[tmp_name 0 := Other 0]> (files sample_world)
    /\ is_Some (files w' !! tmp_name 0).
Proof.
  apply (convert_text_to_speech_leaves_temp_file _ (str_of "Hi. Ok")
           "out.mp3" "en" sample_world (str_of "Hi. Ok") []);
    [reflexivity | reflexivity | vm_compute; reflexivity | reflexivity
    | reflexivity].
Defined.

(** X17.  When the file saved for the first chunk cannot be used, because
    it is empty or does not decode, the call raises and the temporary
    file is removed again: the files are as before the call. *)
Theorem convert_text_to_speech_removes_temp_file (E : env) (text : str)
    (output_file language : string) (w : world) (chunk : str)
    (chunks : list str) (f : file) :
  FFMPEG_AVAILABLE E = true -> display_available E = true ->
  split_text text default_max_chars = Some (chunk :: chunks) ->
  gtts_init E chunk language = true ->
  tts_save E chunk language = Some f ->
  (forall a, f <> Mp3 a) ->
  files w !! tmp_name (tmp_counter w) = None ->
  exists why w',
    convert_text_to_speech E text output_file language w
    = (Raise (RuntimeError why), w')
    /\ files w' = files w
    /\ (file_size f = O ->
        why = "Text-to-speech conversion failed: Failed to create temporary audio file: "
              +:+ tmp_name (tmp_counter w)).
Proof.
  intros Hff Hd Hchunks Hinit Hsave Hf Hfresh.
  unfold convert_text_to_speech, try_except. rewrite Hff, Hchunks, Hd.
  cbn [negb]. unfold synthesize_and_export. cbn [synthesize_chunks].
  rewrite Hinit, Hsave. cbn [negb].
  unfold named_temporary_file, set_files, path_exists, getsize, from_mp3.
  cbn [files dirs stdout logfile tmp_counter].
  rewrite insert_insert_eq, !lookup_insert_eq.
  rewrite bool_decide_eq_true_2 by eauto. cbn [negb orb].
  destruct (file_size f =? 0)%nat eqn:Esize.
  - eexists _, _. split; [reflexivity|]. simpl. split.
    + rewrite delete_insert_eq. now apply delete_id.
    + reflexivity.
  - destruct f as [pages|a|size]; [|now destruct (Hf a)|].
    + eexists _, _. split; [reflexivity|]. simpl. split.
      * rewrite delete_insert_eq. now apply delete_id.
      * simpl in Esize. discriminate.
    + eexists _, _. split; [reflexivity|]. simpl. split.
      * rewrite delete_insert_eq. now apply delete_id.
      * intros ->. discriminate.
Qed.

Lemma convert_text_to_speech_removes_temp_file_witness :
  exists why w',
    convert_text_to_speech
      (Env true true (fun _ _ => true) (fun _ _ => Some (Other 0))
         (fun _ => true) (fun _ => true) (fun _ _ _ => None)
         (fun path => path))
      (str_of "Hi. Ok") "out.mp3" "en" sample_world
    = (Raise (RuntimeError why), w')
    /\ files w' = files sample_world
    /\ (file_size (Other 0) = O ->
        why = "Text-to-speech conversion failed: Failed to create temporary audio file: "
              +:+ tmp_name 0).
Proof.
  apply (convert_text_to_speech_removes_temp_file _ (str_of "Hi. Ok")
           "out.mp3" "en" sample_world (str_of "Hi. Ok") [] (Other 0));
    [reflexivity | reflexivity | vm_compute; reflexivity | reflexivity
    | reflexivity | discriminate | vm_compute; reflexivity].
Defined.

(** ** The command line *)


Lemma adjust_speed_cases (E : env) (a : args) (w : world) :
  (exists why,
      adjust_speed E a w
      = (Ok tt,
         printed ("Warning: Speed adjustment failed: " +:+ why)
           (printed "Adjusting playback speed..." w)))
  \/ (exists au data,
        files w !! output_file a = Some (Mp3 au)
        /\ adjust_speed E a w
           = (Ok tt,
              set_files <[output_file a := Mp3 (Audio (frame_rate au) data)]>
                (printed "Adjusting playback speed..." w))).
Proof.
  unfold adjust_speed, try_except, bind, print, modify, from_mp3. simpl.
  destruct (files w !! output_file a) as [[pages|au|size]|] eqn:Hf;
    try (left; eexists; reflexivity).
  unfold set_frame_rate, spawn_with_frame_rate, export. simpl.
  set (r := int_of_Q (inject_Z (frame_rate au) * speed a)).
  destruct (frame_rate au =? r) eqn:Er; simpl.
  - destruct (writable E (output_file a)); simpl.
    + right. exists au, (raw_data au). split; [reflexivity|].
      apply Z.eqb_eq in Er. now rewrite <- Er.
    + left. eexists. reflexivity.
  - destruct (ratecv E (raw_data au) r (frame_rate au)) as [data|]; simpl.
    + destruct (writable E (output_file a)); simpl.
      * right. exists au, data. split; reflexivity.
      * left. eexists. reflexivity.
    + left. eexists. reflexivity.
Qed.

(** X18.  The speed adjustment never fails the run and never changes the
    nominal frame rate: it either prints a warning and leaves every file
    as it is (the output does not decode, resampling fails, or the file
    cannot be written), or rewrites the output file with the frame rate
    the file had before. *)
Theorem adjust_speed_outcome (E : env) (a : args) (w : world) :
  (exists why,
      adjust_speed E a w
      = (Ok tt,
         printed ("Warning: Speed adjustment failed: " +:+ why)
           (printed "Adjusting playback speed..." w)))
  \/ (exists au data,
        files w !! output_file a = Some (Mp3 au)
        /\ adjust_speed E a w
           = (Ok tt,
              set_files <[output_file a := Mp3 (Audio (frame_rate au) data)]>
                (printed "Adjusting playback speed..." w))).
Proof. apply adjust_speed_cases. Qed.







(** ** Looking for ffmpeg *)

Lemma search_paths_spec (paths : list string) (w : world)
    (converter : string) :
  (Forall (fun p => path_exists p w = false) paths
   /\ search_paths paths w converter = (false, converter))
  \/ (exists before path after,
        paths = before ++ path :: after
        /\ Forall (fun p => path_exists p w = false) before
        /\ path_exists path w = true
        /\ search_paths paths w converter = (true, path)).
Proof.
  induction paths as [|p paths IH]; simpl.
  - left. split; [constructor | reflexivity].
  - destruct (path_exists p w) eqn:Hp.
    + right. exists [], p, paths.
      split; [reflexivity|]. split; [constructor|]. split; [exact Hp|].
      reflexivity.
    + destruct IH as [[Hall ->]|(before & path & after & -> & Hb & Hpath & ->)].
      * left. split; [now constructor | reflexivity].
      * right. exists (p :: before), path, after.
        split; [reflexivity|]. split; [now constructor|].
        split; [exact Hpath | reflexivity].
Qed.

(** X20.  [setup_ffmpeg] reports ffmpeg as found exactly when it is on
    the search path or one of the well-known paths exists.  A hit on the
    search path leaves the converter as it is and is not overridden by
    any well-known path; otherwise the converter becomes the first
    well-known path that exists, in the order of the list; when nothing
    is found the converter stays as it was. *)
Theorem setup_ffmpeg_found (H : host) (w : world) (converter : string) :
  ((setup_ffmpeg H w converter).1 = true
   <-> is_Some (which H "ffmpeg")
       \/ Exists (fun p => path_exists p w = true) (common_paths H))
  /\ (is_Some (which H "ffmpeg") ->
      setup_ffmpeg H w converter = (true, converter))
  /\ ((setup_ffmpeg H w converter).1 = false ->
      (setup_ffmpeg H w converter).2 = converter)
  /\ (which H "ffmpeg" = None ->
      (setup_ffmpeg H w converter).1 = true ->
      exists before after,
        common_paths H = before ++ (setup_ffmpeg H w converter).2 :: after
        /\ path_exists (setup_ffmpeg H w converter).2 w = true
        /\ Forall (fun p => path_exists p w = false) before).
Proof.
  unfold setup_ffmpeg.
  destruct (which H "ffmpeg") as [found|] eqn:Hw.
  - split; [split; [intros _; left; eauto | reflexivity]|].
    split; [reflexivity|]. split; discriminate.
  - assert (~ is_Some (@None string)) as Hnone by (intros [? [=]]).
    destruct (search_paths_spec (common_paths H) w converter)
      as [[Hall ->]|(before & path & after & Hp & Hb & Hpath & ->)];
      cbn [fst snd].
    + split; [split; [discriminate|]|].
      * intros [Hs|Hex]; [now destruct Hnone|].
        apply Exists_exists in Hex as (p & Hin & Hp).
        rewrite Forall_forall in Hall. rewrite (Hall p Hin) in Hp.
        discriminate.
      * split; [intros Hs; now destruct Hnone|].
        split; [reflexivity | discriminate].
    + split; [split; [|reflexivity]|].
      * intros _. right. rewrite Hp. apply Exists_app. right. now left.
      * split; [intros Hs; now destruct Hnone|].
        split; [discriminate|]. intros _ _. now exists before, after.
Qed.

Lemma setup_ffmpeg_found_witness :
  let H := Host (fun _ => None) "Linux" (fun _ => None) "/home/me"
             (fun parts => "/home/me/ffmpeg") in
  let w := World {[ "/opt/bin/ffmpeg" := Other 100;
                    "/home/me/ffmpeg" := Other 7 ]} ∅ [] [] 0 in
  exists before after,
    common_paths H = before ++ (setup_ffmpeg H w "ffmpeg").2 :: after
    /\ path_exists (setup_ffmpeg H w "ffmpeg").2 w = true
    /\ Forall (fun p => path_exists p w = false) before.
Proof.
  intros H w.
  refine (proj2 (proj2 (proj2 (setup_ffmpeg_found H w "ffmpeg"))) _ _);
    vm_compute; reflexivity.
Defined.

(** ** The window *)

Lemma strip_newline_after_stripped (y : str) :
  lstrip y = y -> rstrip y = y -> strip (y ++ [10%N]) = y.
Proof.
  intros Hl Hr. unfold strip. destruct y as [|c y]; [reflexivity|].
  assert (is_space c = false) as Hc.
  { simpl in Hl. destruct (is_space c); [|reflexivity].
    pose proof (lstrip_length y) as Hlen.
    apply (f_equal (@length _)) in Hl. simpl in Hl. lia. }
  cbn [app lstrip]. rewrite Hc.
  change (c :: y ++ [10%N]) with ((c :: y) ++ [10%N]).
  rewrite rstrip_snoc. exact Hr.
Qed.

(** X21.  Loading a PDF that has text puts the cleaned text into the
    text widget and the path into the path variable, shows nothing, and:
    what [generate_speech] then reads from the widget and trims, with the
    newline the widget appends, is the cleaned text again.  Unless the
    text is edited, the window synthesizes the same text as the command
    line. *)
Theorem browse_pdf_loads (file_path : string) (g : gui_state) (w : world)
    (raw_text : str) :
  file_path <> "" ->
  extract_text_from_pdf file_path w = (Ok raw_text, w) ->
  raw_text <> [] ->
  let g' := Gui (clean_text raw_text) file_path (lang_var g) (speed_var g)
              (play_var g) in
  browse_pdf file_path g w = (Ok ([], g'), w)
  /\ strip (text_input_get g') = clean_text raw_text.
Proof.
  intros Hpath Hx Hne g'. split.
  - destruct (extract_text_from_pdf_ok _ _ _ _ Hx) as [_ Hex].
    unfold browse_pdf. apply String.eqb_neq in Hpath. rewrite Hpath.
    unfold try_except, bind, gets. rewrite Hex. cbn [negb]. rewrite Hx.
    destruct raw_text; [congruence | reflexivity].
  - unfold text_input_get, g'. cbn [text_input].
    apply strip_newline_after_stripped; apply clean_text_strip_fixed.
Qed.

Lemma browse_pdf_loads_witness :
  browse_pdf "in.pdf" (Gui [] "" "en" 1 true) sample_world
  = (Ok ([], Gui (clean_text (str_of "Hello world. Bye" ++ [10%N])) "in.pdf"
               "en" 1 true), sample_world)
  /\ strip (text_input_get
              (Gui (clean_text (str_of "Hello world. Bye" ++ [10%N])) "in.pdf"
                 "en" 1 true))
     = clean_text (str_of "Hello world. Bye" ++ [10%N]).
Proof.
  apply (browse_pdf_loads "in.pdf" (Gui [] "" "en" 1 true) sample_world
           (str_of "Hello world. Bye" ++ [10%N]));
    [discriminate | vm_compute; reflexivity | discriminate].
Defined.







(** ** End to end *)

(** X26.  For a PDF with text, when every chunk of the cleaned text is
    spoken and decoded and the output path can be written, the entry
    point returns [True] with [Conversion successful!]; the output file
    holds the speech of the chunks of the cleaned text in order, no
    temporary file is left and nothing is written to the log. *)
Theorem convert_pdf_to_speech_success (E : env)
    (pdf_path output_file language : string) (w : world) (raw_text : str)
    (chunks : list str) (first : audio) (others : list audio) :
  extract_text_from_pdf pdf_path w = (Ok raw_text, w) ->
  raw_text <> [] ->
  FFMPEG_AVAILABLE E = true -> display_available E = true ->
  split_text (clean_text raw_text) default_max_chars = Some chunks ->
  Forall2 (speech_ok E language) chunks (first :: others) ->
  writable E output_file = true ->
  (forall i, output_file <> tmp_name i) ->
  (forall i, (tmp_counter w <= i)%nat -> files w !! tmp_name i = None) ->
  convert_pdf_to_speech E pdf_path output_file language w
  = (Ok (true, "Conversion successful!"),
     World (<[output_file :=
                Mp3 (Audio (frame_rate first)
                       (concat (map raw_data (first :: others))))]> (files w))
       (dirs w) (stdout w) (logfile w) (tmp_counter w + length chunks)).
Proof.
  intros Hx Hne Hff Hd Hchunks Hok Hw Hout Hfresh.
  rewrite (convert_pdf_to_speech_text _ _ _ _ _ _ Hx Hne).
  now rewrite (convert_text_to_speech_ok E (clean_text raw_text) output_file
                 language w chunks first others).
Qed.

Lemma convert_pdf_to_speech_success_witness :
  convert_pdf_to_speech sample_env "in.pdf" "out.mp3" "en" sample_world
  = (Ok (true, "Conversion successful!"),
     World (<["out.mp3" :=
                Mp3 (Audio 24000 (map Z.of_N (str_of "Hello world. Bye")))]>
              (files sample_world))
       (dirs sample_world) (stdout sample_world) (logfile sample_world) 1).
Proof.
  refine (convert_pdf_to_speech_success sample_env "in.pdf" "out.mp3" "en"
            sample_world (str_of "Hello world. Bye" ++ [10%N])
            [str_of "Hello world. Bye"]
            (Audio 24000 (map Z.of_N (str_of "Hello world. Bye"))) []
            _ _ _ _ _ _ _ _ _);
    try reflexivity.
  - discriminate.
  - repeat constructor.
  - intros i. unfold tmp_name. simpl. discriminate.
Defined.

Lemma split_text_of_clean_text_witness :
  exists chunks,
    split_text (clean_text example_raw) default_max_chars = Some chunks
    /\ Forall (fun chunk =>
                 chunk <> [] /\ len chunk <= 1000
                 /\ Forall (fun c => (32 <= c <= 126)%N) chunk
                 /\ lstrip chunk = chunk) chunks
    /\ (chunks = [] <-> clean_text example_raw = []).
Proof. apply split_text_of_clean_text. Defined.
